(** * Lotto 6/49 ticket generator: a shallow embedding and its properties

    The development follows the two C programs of the repository:
    - [lotto649_portable.c]: xorshift128+ engine, Fisher-Yates draw of
      6 main numbers and a bonus, a multiplicative fingerprint and a
      table of fingerprints seen so far;
    - [lotto649.c]: the simple variant built on [rand()].

    64-bit unsigned words are integers of [Z] reduced modulo [2^64];
    C arrays are lists read with [!!] and written with [<[i:=x]>]. *)

From Stdlib Require Import ZArith Lia Bool Ascii String.
From stdpp Require Import base tactics option list numbers sorting.
From stdpp Require Import strings pretty.

Local Open Scope Z_scope.

(** ** Machine words *)

(** [2^64], written out so that evaluation does not recompute the power. *)
Definition two64 : Z := 0x10000000000000000.

Definition u64 (z : Z) : Z := z mod two64.

Definition is_u64 (z : Z) : Prop := 0 <= z < 2 ^ 64.

(** The constant [0x9e3779b97f4a7c15ULL] of [seed_rng] and [hash_ticket]. *)
Definition golden : Z := 0x9e3779b97f4a7c15.

(** ** Xorshift128+ (lotto649_portable.c, lines 41-50) *)

Record engine : Type := Engine { s0 : Z; s1 : Z }.

Definition xorshift128plus (st : engine) : Z * engine :=
  let x := s0 st in
  let y := s1 st in
  let x := Z.lxor x (u64 (Z.shiftl x 23)) in
  let n := Z.lxor (Z.lxor (Z.lxor x y) (Z.shiftr x 17)) (Z.shiftr y 26) in
  (u64 (n + y), {| s0 := y; s1 := n |}).

(** ** Seeding (lines 53-75)

    What [seed_rng] reads from its environment: the result of the
    platform's cryptographic source when there is one ([None] outside
    Windows or when the call fails), the clock, the address of the
    local variable and the performance counter (Windows only). *)

Record environment : Type := Environment {
  crypto : option Z;
  clock : Z;
  stack_address : Z;
  perf_counter : option Z
}.

Definition gather_entropy (e : environment) : Z :=
  match crypto e with
  | Some r => u64 r
  | None =>
      let entropy := u64 (clock e) in
      let entropy := Z.lxor entropy (u64 (stack_address e)) in
      match perf_counter e with
      | Some pc => Z.lxor entropy (u64 pc)
      | None => entropy
      end
  end.

(** The two assignments that end [seed_rng]. *)
Definition seed_state (entropy : Z) : engine :=
  {| s0 := entropy; s1 := Z.lxor entropy golden |}.

Definition seed_rng (e : environment) : engine := seed_state (gather_entropy e).

(** ** Fingerprint of a ticket (lines 99-104) *)

Definition hash_step (h v : Z) : Z := u64 (Z.lxor h (u64 v) * golden).

Definition hash_ticket (ticket : list Z) : Z :=
  fold_left hash_step (take 7 ticket) 0x517cc1b727220a95.

(** ** One draw (lines 78-95) *)

(** The comparator handed to [qsort]. Its operands are pool entries,
    small enough for the [int] subtraction to be exact. *)
Definition cmp (a b : Z) : Z := a - b.

Definition cmp_le (a b : Z) : Prop := cmp a b <= 0.

#[global] Instance cmp_le_dec : RelDecision cmp_le.
Proof. intros a b. unfold cmp_le. apply Z_le_dec. Defined.

(** [qsort] is the C library's: any comparison sort driven by [cmp]
    yields the same array of integers; merge sort stands for it. *)
Definition qsort (a : list Z) : list Z := merge_sort cmp_le a.

(** [for (i = 0; i < 49; i++) pool[i] = i + 1] *)
Definition pool_init : list Z := seqZ 1 49.

(** [t = pool[i]; pool[i] = pool[j]; pool[j] = t]. Both indices are
    inside the array in every call; outside it the C code has no
    defined behaviour and the model leaves the array alone. *)
Definition swap (pool : list Z) (i j : nat) : list Z :=
  match pool !! i, pool !! j with
  | Some t, Some pj => <[j:=t]> (<[i:=pj]> pool)
  | _, _ => pool
  end.

(** The index drawn at step [i] from the engine output [r]:
    [(int)(r % (i + 1))]. *)
Definition pick (r : Z) (i : nat) : nat := Z.to_nat (r mod (Z.of_nat i + 1)).

(** [for (i = n; i > 0; i--)] of the Fisher-Yates loop. *)
Fixpoint shuffle (i : nat) (pool : list Z) (st : engine) : list Z * engine :=
  match i with
  | O => (pool, st)
  | S i' =>
      let '(r, st) := xorshift128plus st in
      shuffle i' (swap pool i (pick r i)) st
  end.

(** [memcpy(ticket, pool, 7 * sizeof(int)); qsort(ticket, 6, ...)] *)
Definition cut_ticket (pool : list Z) : list Z :=
  let ticket := take 7 pool in
  qsort (take 6 ticket) ++ drop 6 ticket.

Definition draw_one (st : engine) : list Z * engine :=
  let '(pool, st) := shuffle 48 pool_init st in
  (cut_ticket pool, st).

(** The same loop reading the engine outputs from a list, first output
    first: [shuffle] is [shuffle_with] on the next outputs of the
    engine (lemma [shuffle_outputs]). *)
Fixpoint shuffle_with (i : nat) (pool : list Z) (rs : list Z) : list Z :=
  match i, rs with
  | S i', r :: rs => shuffle_with i' (swap pool i (pick r i)) rs
  | _, _ => pool
  end.

Definition draw_with (rs : list Z) : list Z :=
  cut_ticket (shuffle_with 48 pool_init rs).

Fixpoint outputs (n : nat) (st : engine) : list Z * engine :=
  match n with
  | O => ([], st)
  | S n =>
      let '(r, st) := xorshift128plus st in
      let '(rs, st) := outputs n st in
      (r :: rs, st)
  end.

(** The main numbers and the bonus of a ticket. *)
Definition main_numbers (ticket : list Z) : list Z := take 6 ticket.
Definition bonus (ticket : list Z) : option Z := ticket !! 6%nat.

(** ** The table of fingerprints (lines 107-133) *)

(** [seen] is [None] while the C pointer is [NULL]. *)
Record guard : Type := Guard { seen : option (list Z); capacity : Z }.

Definition guard_init : guard := {| seen := None; capacity := 0 |}.

(** [realloc] to [cap] words followed by the [memset] of the upper half. *)
Definition grow (cap : Z) (tbl : list Z) : list Z :=
  resize (Z.to_nat (cap / 2)) 0 tbl ++ replicate (Z.to_nat (cap / 2)) 0.

(** [remember(h, index)]; [None] is a store outside the table. *)
Definition remember (h index : Z) (g : guard) : option guard :=
  let g :=
    match seen g with
    | None => {| seen := Some (replicate 1024 0); capacity := 1024 |}
    | Some _ => g
    end in
  let g :=
    if decide (capacity g <= index)
    then {| seen := grow (capacity g * 2) <$> seen g; capacity := capacity g * 2 |}
    else g in
  match seen g with
  | Some tbl =>
      if decide (0 <= index < Z.of_nat (length tbl))
      then Some {| seen := Some (<[Z.to_nat index := h]> tbl); capacity := capacity g |}
      else None
  | None => None
  end.

(** Results of code with loops that need not end: a value, a loop still
    running when the fuel is spent, or an access outside an array. *)
Inductive loop_id : Type := Lookup | Redraw.

Inductive res (A : Type) : Type :=
  | Ret (a : A)
  | Hang (l : loop_id)
  | Fault.
Arguments Ret {A} a.
Arguments Hang {A} l.
Arguments Fault {A}.

(** The [while (seen[i])] loop of [already_seen]. *)
Fixpoint probe (fuel : nat) (tbl : list Z) (mask h i : Z) : res bool :=
  match fuel with
  | O => Hang Lookup
  | S fuel =>
      match tbl !! Z.to_nat i with
      | None => Fault
      | Some v =>
          if decide (v = 0) then Ret false
          else if decide (v = h) then Ret true
          else probe fuel tbl mask h (Z.land (i + 1) mask)
      end
  end.

Definition already_seen (fuel : nat) (g : guard) (h : Z) : res bool :=
  match seen g with
  | None => Ret false
  | Some tbl =>
      let mask := capacity g - 1 in
      probe fuel tbl mask h (Z.land h mask)
  end.

(** ** The C library's number parsing

    [strtol] and [atoi] are the C library's; they are modelled after
    the C standard for base 10, with a 64-bit [long] and a 32-bit [int].
    [strtol] returns the value and the rest of the string that [end]
    points to. *)

Definition isspace (c : ascii) : bool :=
  let n := nat_of_ascii c in
  Nat.eqb n 32 || (Nat.leb 9 n && Nat.leb n 13).

Definition digit (c : ascii) : option Z :=
  let n := nat_of_ascii c in
  if Nat.leb 48 n && Nat.leb n 57 then Some (Z.of_nat n - 48) else None.

Fixpoint skip_spaces (s : string) : string :=
  match s with
  | String c s' => if isspace c then skip_spaces s' else s
  | EmptyString => s
  end.

Fixpoint digits (acc : Z) (s : string) : Z * string :=
  match s with
  | String c s' =>
      match digit c with
      | Some d => digits (10 * acc + d) s'
      | None => (acc, s)
      end
  | EmptyString => (acc, s)
  end.

Definition LONG_MAX : Z := 2 ^ 63 - 1.
Definition LONG_MIN : Z := - 2 ^ 63.

Definition clamp_long (z : Z) : Z := Z.max LONG_MIN (Z.min LONG_MAX z).

(** The optional sign in front of the digits. *)
Definition split_sign (s : string) : bool * string :=
  match s with
  | String "-" s' => (true, s')
  | String "+" s' => (false, s')
  | _ => (false, s)
  end.

Definition strtol (nptr : string) : Z * string :=
  let '(negative, s) := split_sign (skip_spaces nptr) in
  match s with
  | String c _ =>
      match digit c with
      | Some _ =>
          let '(v, rest) := digits 0 s in
          (clamp_long (if negative then - v else v), rest)
      | None => (0, nptr)
      end
  | EmptyString => (0, nptr)
  end.

(** The conversion of a [long] to [int]: [atoi] is [(int) strtol(s, NULL, 10)]
    in the common C libraries; the standard leaves the result open when
    the number does not fit. *)
Definition to_int (z : Z) : Z := (z + 2 ^ 31) mod 2 ^ 32 - 2 ^ 31.

Definition atoi (nptr : string) : Z := to_int (fst (strtol nptr)).

(** ** The run of the portable variant (lines 136-167) *)

(** [argv] holds the program name and the arguments: [argc] is its length. *)
Definition parse_count (argv : list string) : Z :=
  match argv with
  | _ :: arg :: _ =>
      let '(n, rest) := strtol arg in
      match rest with
      | EmptyString => if decide (1 <= n) then n else 5
      | String _ _ => 5
      end
  | _ => 5
  end.

(** The [do ... while (already_seen(h))] loop. [fuel] bounds the draws
    and [lfuel] the probes of one lookup. *)
Fixpoint draw_fresh (fuel lfuel : nat) (st : engine) (g : guard)
    : res (list Z * Z * engine) :=
  match fuel with
  | O => Hang Redraw
  | S fuel =>
      let '(ticket, st) := draw_one st in
      let h := hash_ticket ticket in
      match already_seen lfuel g h with
      | Ret true => draw_fresh fuel lfuel st g
      | Ret false => Ret (ticket, h, st)
      | Hang l => Hang l
      | Fault => Fault
      end
  end.

(** The state of a run: the engine, the table and the tickets printed
    so far, oldest first. *)
Record run : Type := Run {
  rng : engine;
  table : guard;
  printed : list (list Z)
}.

Definition start (st : engine) : run :=
  {| rng := st; table := guard_init; printed := [] |}.

(** [k] rounds of the [for] loop, the first of them for ticket [n]. *)
Fixpoint tickets (fuel lfuel : nat) (k : nat) (n : Z) (s : run) : res run :=
  match k with
  | O => Ret s
  | S k =>
      match draw_fresh fuel lfuel (rng s) (table s) with
      | Ret (ticket, h, st) =>
          match remember h (n - 1) (table s) with
          | Some g =>
              tickets fuel lfuel k (n + 1)
                {| rng := st; table := g; printed := printed s ++ [ticket] |}
          | None => Fault
          end
      | Hang l => Hang l
      | Fault => Fault
      end
  end.

(** A finished run: the exit status and the tickets printed. *)
Record finished : Type := Finished {
  exit_status : Z;
  stderr : string;
  stdout : list (list Z)
}.

Definition lotto (fuel lfuel : nat) (want : Z) (st : engine) : res finished :=
  match tickets fuel lfuel (Z.to_nat want) 1 (start st) with
  | Ret s => Ret {| exit_status := 0; stderr := EmptyString; stdout := printed s |}
  | Hang l => Hang l
  | Fault => Fault
  end.

Definition main (fuel lfuel : nat) (argv : list string) (e : environment)
    : res finished :=
  lotto fuel lfuel (parse_count argv) (seed_rng e).

(** ** The simple variant (lotto649.c)

    [srand] and [rand] are the C library's: the section is parametric
    in the generator, which returns an [int] and its next state. *)

(** The message of the simple variant, with its newline. *)
Definition invalid_count : string :=
  "Invalid ticket count. Must be a positive integer." ++ String "010" EmptyString.

Section simple_variant.
Context {R : Type} (srand : Z -> R) (rand : R -> Z * R).

(** [j = rand() % (i + 1)] on [int], rounding towards zero. *)
Fixpoint shuffle_rand (i : nat) (numbers : list Z) (s : R) : list Z * R :=
  match i with
  | O => (numbers, s)
  | S i' =>
      let '(r, s) := rand s in
      let j := Z.to_nat (Z.rem r (Z.of_nat i + 1)) in
      shuffle_rand i' (swap numbers i j) s
  end.

(** The line printed by [generate_ticket] and the generator's state. *)
Definition generate_ticket (s : R) : list Z * R :=
  let '(numbers, s) := shuffle_rand 48 pool_init s in
  (qsort (take 6 numbers), s).

Fixpoint generate (count : nat) (s : R) : list (list Z) :=
  match count with
  | O => []
  | S count => let '(t, s) := generate_ticket s in t :: generate count s
  end.

Definition main_simple (argv : list string) (now : Z) : finished :=
  let go (count : Z) :=
    {| exit_status := 0;
       stderr := EmptyString;
       stdout := generate (Z.to_nat count) (srand (now mod 2 ^ 32)) |} in
  match argv with
  | _ :: arg :: _ =>
      let count := atoi arg in
      if decide (count <= 0)
      then {| exit_status := 1;
              stderr := invalid_count;
              stdout := [] |}
      else go count
  | _ => go 5
  end.
End simple_variant.

(** ** Properties of tickets *)

Definition in_range (v : Z) : Prop := 1 <= v <= 49.

(** Seven values: six main numbers, strictly ascending, and a bonus;
    all in [1,49] and pairwise distinct. *)
Definition valid_ticket (t : list Z) : Prop :=
  length t = 7%nat /\ Forall in_range t /\ NoDup t /\ Sorted Z.lt (main_numbers t).

(** A line of the simple variant: six values, strictly ascending. *)
Definition valid_line (t : list Z) : Prop :=
  length t = 6%nat /\ Forall in_range t /\ NoDup t /\ Sorted Z.lt t.

(** Two arrays that differ at index [i] and nowhere else. *)
Definition differ_only_at (i : nat) (t1 t2 : list Z) : Prop :=
  t1 !! i <> t2 !! i /\ forall j, j <> i -> t1 !! j = t2 !! j.

(** ** The shape of the table during a run *)

(** The table after the fingerprints [hs] were remembered, in this
    order, at the indices 0, 1, 2, ...: the pointer is still [NULL]
    and the capacity 0 before the first of them; afterwards the
    capacity is 1024 doubled
    some number of times, and the table holds [hs] followed by zeros. *)
Definition guard_holds (hs : list Z) (g : guard) : Prop :=
  match seen g with
  | None => hs = [] /\ capacity g = 0
  | Some tbl =>
      (exists m : nat, capacity g = 1024 * 2 ^ Z.of_nat m) /\
      Z.of_nat (length hs) <= capacity g /\
      tbl = hs ++ replicate (Z.to_nat (capacity g) - length hs) 0
  end.

(** A table as [already_seen] expects it: as long as its capacity, a
    power of two. *)
Definition well_formed (g : guard) : Prop :=
  match seen g with
  | None => True
  | Some tbl =>
      (exists e, 0 <= e /\ capacity g = 2 ^ e) /\
      length tbl = Z.to_nat (capacity g)
  end.

Definition has_free_slot (g : guard) : Prop :=
  match seen g with
  | None => True
  | Some tbl => 0 ∈ tbl
  end.

(** The state of a run about to produce ticket number [n]: the tickets
    printed so far are the [n - 1] before it, and the table holds their
    fingerprints in the order of printing. *)
Definition run_holds (s : run) (n : Z) : Prop :=
  n = Z.of_nat (length (printed s)) + 1 /\
  guard_holds (hash_ticket <$> printed s) (table s).

(** The environment of a launch on a system without a cryptographic
    source: the clock reads 2025-11-06 12:00:05 UTC and the local
    variable of [seed_rng] lies at [0x7ffd690dae70]. *)
Definition launch : environment :=
  {| crypto := None;
     clock := 1762430405;
     stack_address := 0x7ffd690dae70;
     perf_counter := None |}.

(** A finished run with exit status 0 and 94 tickets of which those at
    the indices [i] and [j] are both [t]. *)
Definition repeats_at (i j : nat) (t : list Z) (r : res finished) : bool :=
  match r with
  | Ret f =>
      bool_decide (exit_status f = 0 /\ length (stdout f) = 94%nat /\
                   stdout f !! i = Some t /\ stdout f !! j = Some t)
  | _ => false
  end.

(** [golden] is odd, hence invertible modulo [2^64]. *)
Definition golden_inverse : Z := 0xf1de83e19937733d.

(** The sample generator of the C standard, as a [rand] to run the
    simple variant on. *)
Definition sample_rand (next : Z) : Z * Z :=
  let next := (next * 1103515245 + 12345) mod 2 ^ 32 in
  ((next / 65536) mod 32768, next).

(** The table after one fingerprint, 5, was remembered. *)
Definition one_entry : guard :=
  {| seen := Some (5 :: replicate 1023 0); capacity := 1024 |}.

(** ** Arguments that are numbers

    What the argument says, apart from how the programs read it: after
    optional white space and an optional sign, [starts_numeric] asks for
    a decimal digit, [numeric] for decimal digits up to the end of the
    argument, and [value] is the number written by the leading digits. *)

Definition starts_numeric (arg : string) : bool :=
  match (split_sign (skip_spaces arg)).2 with
  | String c _ => bool_decide (is_Some (digit c))
  | EmptyString => false
  end.

Definition numeric (arg : string) : bool :=
  starts_numeric arg &&
  match (digits 0 (split_sign (skip_spaces arg)).2).2 with
  | EmptyString => true
  | String _ _ => false
  end.

Definition value (arg : string) : Z :=
  let '(negative, s) := split_sign (skip_spaces arg) in
  let v := (digits 0 s).1 in
  if negative then - v else v.

(** [srand] of the sample generator of the C standard. *)
Definition sample_srand (seed : Z) : Z := seed.

(** ** Sequences of engine outputs *)

(** The 48 outputs that one draw consumes. *)
Definition engine_outputs (rs : list Z) : Prop :=
  length rs = 48%nat /\ Forall is_u64 rs.

(** All the lists of [n] entries taken from [alphabet]. *)
Fixpoint words (n : nat) (alphabet : list Z) : list (list Z) :=
  match n with
  | O => [[]]
  | S n => a ← alphabet; cons a <$> words n alphabet
  end.

(** The sequences of 48 engine outputs, each once. *)
Definition all_outputs : list (list Z) := words 48 (seqZ 0 two64).

(** The choices of [k] entries of [l], in the order of [l]. *)
Fixpoint combs (l : list Z) (k : nat) : list (list Z) :=
  match k, l with
  | O, _ => [[]]
  | S _, [] => []
  | S k', x :: l' => (cons x <$> combs l' k') ++ combs l' k
  end.

(** The number of choices of [k] among [n], by Pascal's rule. *)
Fixpoint binomial (n k : nat) : Z :=
  match k, n with
  | O, _ => 1
  | S _, O => 0
  | S k', S n' => binomial n' k' + binomial n' k
  end.

(** The ascending choices of 6 numbers, and the tickets: such a choice
    followed by one of the numbers it leaves out. *)
Definition all_mains : list (list Z) := combs pool_init 6.

Definition all_tickets : list (list Z) :=
  m ← all_mains; (fun b => m ++ [b]) <$> filter (fun b => b ∉ m) pool_init.

(** Exactly [c] sequences of engine outputs make [draw_one] return the
    ticket [o]: they can be listed without repetition in a list of
    length [c]. *)
Definition produced_by (o : list Z) (c : nat) : Prop :=
  exists l : list (list Z),
    NoDup l /\ length l = c /\
    forall rs, rs ∈ l <-> engine_outputs rs /\ draw_with rs = o.

(** Exactly [c] of the 64-bit values make step [i] of the shuffle pick
    the index [j]. *)
Definition picked_by (i j : nat) (c : Z) : Prop :=
  exists l : list Z,
    NoDup l /\ Z.of_nat (length l) = c /\
    forall r, r ∈ l <-> is_u64 r /\ pick r i = j.

(** A table of 1024 words that all hold the fingerprint 5. *)
Definition full_table : guard :=
  {| seen := Some (replicate 1024 5); capacity := 1024 |}.

(** ** The engine over time *)

(** An engine whose two state words are 64-bit values. *)
Definition engine_ok (st : engine) : Prop := is_u64 (s0 st) /\ is_u64 (s1 st).

(** The state after [n] calls of [xorshift128plus]. *)
Definition advance (n : nat) (st : engine) : engine := (outputs n st).2.

(** ** The table as the run uses it *)

(** The calls [remember(h, index)], [remember(h', index + 1)], ... that
    the [for] loop of [main] makes for the fingerprints [hs]. *)
Fixpoint remember_all (hs : list Z) (index : Z) (g : guard) : option guard :=
  match hs with
  | [] => Some g
  | h :: hs =>
      match remember h index g with
      | Some g => remember_all hs (index + 1) g
      | None => None
      end
  end.

(** The slot at which the lookup of [h] starts: [h & (capacity - 1)]. *)
Definition home (g : guard) (h : Z) : Z := Z.land h (capacity g - 1).

(** A table that holds the fingerprint 1024 in its first slot. *)
Definition home_entry : guard :=
  {| seen := Some (1024 :: replicate 1023 0); capacity := 1024 |}.

(** The capacity is no more than the stored fingerprints call for: the
    initial 1024, or less than twice their number. *)
Definition capacity_tight (hs : list Z) (g : guard) : Prop :=
  seen g = None \/ capacity g = 1024 \/ capacity g < 2 * Z.of_nat (length hs).

(** ** Decimal numerals *)

(** The character of the decimal digit [d] and the numeral written
    with the digits [ds], most significant first, with its value. *)
Definition digit_char (d : nat) : ascii := ascii_of_nat (48 + d).

Fixpoint numeral (ds : list nat) : string :=
  match ds with
  | [] => EmptyString
  | d :: ds => String (digit_char d) (numeral ds)
  end.

Definition numeral_value (ds : list nat) : Z :=
  fold_left (fun acc d => 10 * acc + Z.of_nat d) ds 0.

(** ** The printed lines

    [printf] is the C library's: [%d] writes the decimal numeral of an
    integer, and a width of 2 fills numerals of one character on the
    left, with a zero for [%02d] and with a space for [%2ld]. *)

Definition fmt_02d (v : Z) : string :=
  let s := pretty v in
  if decide (String.length s < 2)%nat then String "0" s else s.

Definition fmt_2ld (n : Z) : string :=
  let s := pretty n in
  if decide (String.length s < 2)%nat then String " " s else s.

Definition newline : string := String "010" EmptyString.

(** [printf("%02d ", ticket[i])] for each number of [numbers], followed
    by [tail]. *)
Definition print_numbers (numbers : list Z) (tail : string) : string :=
  foldr (fun v s => fmt_02d v +:+ " " +:+ s) tail numbers.

(** The line of [generate_ticket] (lotto649.c, lines 55-59). *)
Definition print_line (ticket : list Z) : string :=
  print_numbers ticket newline.

(** The line of ticket [n] in [main] (lotto649_portable.c, lines 160-162). *)
Definition print_ticket (n : Z) (ticket : list Z) : string :=
  "Ticket " +:+ fmt_2ld n +:+ ": " +:+
  print_numbers (take 6 ticket)
    ("  Bonus " +:+ fmt_02d (default 0 (ticket !! 6%nat)) +:+ newline).

(** A string of two decimal digits that reads as [v]. *)
Definition two_digits (v : Z) (s : string) : bool :=
  match s with
  | String a (String b EmptyString) =>
      match digit a, digit b with
      | Some x, Some y => bool_decide (v = 10 * x + y)
      | _, _ => false
      end
  | _ => false
  end.

(** ** The draws of a run *)

(** The first [m] tickets that [draw_one] returns from the state [st]
    on, one call after the other. *)
Fixpoint draws (m : nat) (st : engine) : list (list Z) :=
  match m with
  | O => []
  | S m => let '(t, st) := draw_one st in t :: draws m st
  end.

(** ** A run that redraws *)

(** A launch a day later, at 2025-11-07 15:53:12 UTC, with the same
    stack address. The first draw for its 53rd ticket is its 15th
    ticket again, which the lookup finds. *)
Definition relaunch : environment :=
  {| crypto := None;
     clock := 1762530792;
     stack_address := 0x7ffd690dae70;
     perf_counter := None |}.

(** The run launched in [e] when [k] tickets are printed without a
    redraw. *)
Definition after (k : nat) (e : environment) : run :=
  match tickets 1 1024 k 1 (start (seed_rng e)) with
  | Ret s => s
  | _ => start (seed_rng e)
  end.

(** * Lemmas on 64-bit words *)

Lemma u64_eq z : u64 z = z mod 2 ^ 64.
Proof. reflexivity. Qed.

Lemma u64_range z : is_u64 (u64 z).
Proof. unfold is_u64. rewrite u64_eq. apply Z.mod_pos_bound. lia. Qed.

Lemma u64_small z : is_u64 z -> u64 z = z.
Proof. unfold is_u64. rewrite u64_eq. intros H. apply Z.mod_small. lia. Qed.

Lemma u64_lxor a b : u64 (Z.lxor a b) = Z.lxor (u64 a) (u64 b).
Proof.
  rewrite !u64_eq, <- !Z.land_ones by lia.
  apply Z.bits_inj'. intros n Hn.
  rewrite Z.lxor_spec, !Z.land_spec, Z.lxor_spec.
  destruct (Z.testbit (Z.ones 64) n); [rewrite !andb_true_r | rewrite !andb_false_r]; reflexivity.
Qed.

Lemma lxor_u64 a b : is_u64 a -> is_u64 b -> is_u64 (Z.lxor a b).
Proof.
  intros Ha Hb. rewrite <- (u64_small a Ha), <- (u64_small b Hb), <- u64_lxor.
  apply u64_range.
Qed.

Lemma lxor_cancel_r a b w : Z.lxor a w = Z.lxor b w -> a = b.
Proof.
  intros H. apply (f_equal (fun z => Z.lxor z w)) in H.
  rewrite !Z.lxor_assoc, Z.lxor_nilpotent, !Z.lxor_0_r in H. exact H.
Qed.

Lemma lxor_cancel_l a b w : Z.lxor w a = Z.lxor w b -> a = b.
Proof. rewrite !(Z.lxor_comm w). apply lxor_cancel_r. Qed.

Lemma lxor_golden_neq z : Z.lxor z golden <> z.
Proof.
  intros H. rewrite <- (Z.lxor_0_r z) in H at 2.
  apply lxor_cancel_l in H. discriminate H.
Qed.


Lemma golden_inverse_spec : u64 (golden * golden_inverse) = 1.
Proof. reflexivity. Qed.

Lemma mul_golden_inj a b :
  is_u64 a -> is_u64 b -> u64 (a * golden) = u64 (b * golden) -> a = b.
Proof.
  intros Ha Hb H.
  assert (back : forall x, is_u64 x -> u64 (u64 (x * golden) * golden_inverse) = x).
  { intros x Hx. rewrite !u64_eq.
    rewrite Z.mul_mod_idemp_l by lia.
    rewrite <- Z.mul_assoc, Z.mul_mod by lia.
    change ((golden * golden_inverse) mod 2 ^ 64) with 1.
    rewrite Z.mul_1_r, Z.mod_mod by lia. apply Z.mod_small. exact Hx. }
  rewrite <- (back a Ha), <- (back b Hb), H. reflexivity.
Qed.

(** * The fingerprint *)

Lemma hash_step_range h v : is_u64 (hash_step h v).
Proof. apply u64_range. Qed.

Lemma hash_step_inj_acc h1 h2 v :
  is_u64 h1 -> is_u64 h2 -> hash_step h1 v = hash_step h2 v -> h1 = h2.
Proof.
  unfold hash_step. intros H1 H2 H.
  apply mul_golden_inj in H; try (apply lxor_u64; [assumption | apply u64_range]).
  exact (lxor_cancel_r _ _ _ H).
Qed.

Lemma hash_step_inj_val h v1 v2 :
  is_u64 h -> hash_step h v1 = hash_step h v2 -> u64 v1 = u64 v2.
Proof.
  unfold hash_step. intros Hh H.
  apply mul_golden_inj in H; try (apply lxor_u64; [assumption | apply u64_range]).
  exact (lxor_cancel_l _ _ _ H).
Qed.

Lemma fold_hash_range l h : is_u64 h -> is_u64 (fold_left hash_step l h).
Proof.
  revert h. induction l as [|v l IH]; intros h Hh; simpl; [exact Hh |].
  apply IH, hash_step_range.
Qed.

Lemma fold_hash_inj l h1 h2 :
  is_u64 h1 -> is_u64 h2 ->
  fold_left hash_step l h1 = fold_left hash_step l h2 -> h1 = h2.
Proof.
  revert h1 h2. induction l as [|v l IH]; intros h1 h2 H1 H2 H; simpl in H; [exact H |].
  apply IH in H; try apply hash_step_range.
  exact (hash_step_inj_acc _ _ _ H1 H2 H).
Qed.

Lemma differ_only_at_split i t1 t2 :
  length t1 = length t2 -> differ_only_at i t1 t2 ->
  exists pre a b post,
    t1 = pre ++ a :: post /\ t2 = pre ++ b :: post /\ a <> b.
Proof.
  intros Hlen [Hi Hj].
  destruct (t1 !! i) as [a|] eqn:E1; destruct (t2 !! i) as [b|] eqn:E2.
  - exists (take i t1), a, b, (drop (S i) t1).
    split; [symmetry; by apply take_drop_middle |].
    split; [| congruence].
    rewrite <- (take_drop_middle t2 i b E2) at 1.
    f_equal; [| f_equal].
    + apply list_eq. intros k. destruct (decide (k < i)%nat).
      * rewrite !lookup_take_lt by lia. symmetry. apply Hj. lia.
      * rewrite !lookup_take_ge by lia. reflexivity.
    + apply list_eq. intros k. rewrite !lookup_drop. symmetry. apply Hj. lia.
  - apply lookup_lt_Some in E1. apply lookup_ge_None in E2. lia.
  - apply lookup_lt_Some in E2. apply lookup_ge_None in E1. lia.
  - congruence.
Qed.

(** C7. For every 64-bit seed, seeding sets the first state word to the
    seed and the second to the seed XORed with the odd constant
    [0x9e3779b97f4a7c15]; both are 64-bit words, they differ, and they
    are not both zero. *)
Theorem seed_state_words (seed : Z) :
  is_u64 seed ->
  let st := seed_state seed in
  s0 st = seed /\ s1 st = Z.lxor seed 0x9e3779b97f4a7c15 /\
  Z.odd 0x9e3779b97f4a7c15 = true /\
  is_u64 (s0 st) /\ is_u64 (s1 st) /\
  s0 st <> s1 st /\ ~ (s0 st = 0 /\ s1 st = 0).
Proof.
  intros Hseed st. subst st. simpl.
  repeat split; try reflexivity; try apply Hseed.
  - apply (lxor_u64 _ _ Hseed). unfold is_u64, golden. lia.
  - apply (lxor_u64 _ _ Hseed). unfold is_u64, golden. lia.
  - intros H. symmetry in H. exact (lxor_golden_neq _ H).
  - intros [H0 H1]. rewrite H0 in H1. discriminate H1.
Qed.

Lemma seed_state_words_zero :
  is_u64 0 /\
  s0 (seed_state 0) = 0 /\ s1 (seed_state 0) = 0x9e3779b97f4a7c15 /\
  s0 (seed_state 0) <> s1 (seed_state 0).
Proof.
  assert (H : is_u64 0) by (unfold is_u64; lia).
  split; [exact H |].
  destruct (seed_state_words 0 H) as (E0 & E1 & _ & _ & _ & Hne & _).
  split; [exact E0 |]. split; [exact E1 | exact Hne].
Defined.

(** C8. [hash_ticket] is a function of the 7 ticket values, and two
    tickets of 7 values in [1,49] that differ in exactly one position
    (the bonus position included) have different fingerprints. *)
Theorem hash_ticket_sensitive (t1 t2 : list Z) (i : nat) :
  length t1 = 7%nat -> length t2 = 7%nat ->
  Forall in_range t1 -> Forall in_range t2 ->
  differ_only_at i t1 t2 ->
  hash_ticket t1 <> hash_ticket t2.
Proof.
  intros L1 L2 R1 R2 Hd.
  destruct (differ_only_at_split i t1 t2) as (pre & a & b & post & E1 & E2 & Hab);
    [congruence | exact Hd |].
  unfold hash_ticket.
  rewrite !take_ge by lia. subst t1 t2.
  rewrite !fold_left_app. simpl. intros H.
  assert (Hpre : is_u64 (fold_left hash_step pre 0x517cc1b727220a95)).
  { apply fold_hash_range. unfold is_u64. lia. }
  apply fold_hash_inj in H; try apply hash_step_range.
  apply hash_step_inj_val in H; [| exact Hpre].
  apply Forall_app in R1 as [_ R1]. apply Forall_cons in R1 as [Ra _].
  apply Forall_app in R2 as [_ R2]. apply Forall_cons in R2 as [Rb _].
  unfold in_range in Ra, Rb.
  rewrite !u64_small in H by (unfold is_u64; lia).
  contradiction.
Qed.

Lemma hash_ticket_sensitive_bonus :
  hash_ticket [1; 18; 20; 37; 40; 42; 35] <> hash_ticket [1; 18; 20; 37; 40; 42; 36].
Proof.
  apply (hash_ticket_sensitive _ _ 6); try reflexivity.
  - repeat constructor; unfold in_range; lia.
  - repeat constructor; unfold in_range; lia.
  - split; [discriminate |].
    intros j Hj. do 7 (destruct j as [|j]; [reflexivity || contradiction |]). reflexivity.
Defined.

(** * The sampler *)

#[global] Instance cmp_le_total : Total cmp_le.
Proof. intros a b. unfold cmp_le, cmp. lia. Qed.

Lemma swap_Permutation pool i j : swap pool i j ≡ₚ pool.
Proof.
  unfold swap.
  destruct (pool !! i) as [t|] eqn:Ei; [| reflexivity].
  destruct (pool !! j) as [pj|] eqn:Ej; [| reflexivity].
  by apply Permutation_insert_swap.
Qed.

Lemma length_swap pool i j : length (swap pool i j) = length pool.
Proof. apply Permutation_length, swap_Permutation. Qed.

Lemma shuffle_with_Permutation i pool rs : shuffle_with i pool rs ≡ₚ pool.
Proof.
  revert pool rs. induction i as [|i IH]; intros pool [|r rs]; simpl; try reflexivity.
  rewrite IH. apply swap_Permutation.
Qed.

Lemma shuffle_outputs i pool st :
  shuffle i pool st = (shuffle_with i pool (outputs i st).1, (outputs i st).2).
Proof.
  revert pool st. induction i as [|i IH]; intros pool st; [reflexivity |].
  cbn [shuffle outputs shuffle_with].
  destruct (xorshift128plus st) as [r st1].
  rewrite IH. destruct (outputs i st1) as [rs st2]. reflexivity.
Qed.

Lemma length_outputs n st : length (outputs n st).1 = n.
Proof.
  revert st. induction n as [|n IH]; intros st; [reflexivity |].
  cbn [outputs]. destruct (xorshift128plus st) as [r st1].
  specialize (IH st1). destruct (outputs n st1) as [rs st2]. simpl in *. lia.
Qed.

Lemma draw_one_outputs st : (draw_one st).1 = draw_with (outputs 48 st).1.
Proof. unfold draw_one, draw_with. rewrite shuffle_outputs. reflexivity. Qed.

Lemma shuffle_rand_Permutation {R} (rand : R -> Z * R) i numbers s :
  (shuffle_rand rand i numbers s).1 ≡ₚ numbers.
Proof.
  revert numbers s. induction i as [|i IH]; intros numbers s; [reflexivity |].
  cbn [shuffle_rand]. destruct (rand s) as [r s1].
  rewrite IH. apply swap_Permutation.
Qed.

Lemma pool_init_range : Forall in_range pool_init.
Proof. apply Forall_seqZ. intros v Hv. unfold in_range. lia. Qed.

Lemma pool_init_NoDup : NoDup pool_init.
Proof. apply NoDup_seqZ. Qed.

Lemma pool_init_length : length pool_init = 49%nat.
Proof. reflexivity. Qed.

(** What a prefix of a shuffled pool inherits from the pool. *)
Lemma prefix_of_shuffled n pool :
  pool ≡ₚ pool_init -> (n <= 49)%nat ->
  length (take n pool) = n /\ Forall in_range (take n pool) /\ NoDup (take n pool).
Proof.
  intros Hp Hn.
  assert (Hlen : length pool = 49%nat) by (rewrite Hp; reflexivity).
  split; [rewrite length_take; lia |].
  split.
  - apply Forall_take. rewrite Hp. apply pool_init_range.
  - assert (Hnd : NoDup pool) by (rewrite Hp; apply pool_init_NoDup).
    rewrite <- (take_drop n pool) in Hnd. by apply NoDup_app in Hnd as [? _].
Qed.

Lemma qsort_Permutation a : qsort a ≡ₚ a.
Proof. apply merge_sort_Permutation. Qed.

Lemma length_qsort a : length (qsort a) = length a.
Proof. apply Permutation_length, qsort_Permutation. Qed.

Lemma qsort_Sorted a : Sorted cmp_le (qsort a).
Proof. apply Sorted_merge_sort, _. Qed.

Lemma Sorted_cmp_le_lt l : Sorted cmp_le l -> NoDup l -> Sorted Z.lt l.
Proof.
  induction 1 as [|x l Hs IH Hhd]; intros Hnd; [constructor |].
  apply NoDup_cons in Hnd as [Hx Hnd].
  constructor; [by apply IH |].
  destruct Hhd as [|y l Hxy]; constructor.
  unfold cmp_le, cmp in Hxy.
  assert (x <> y) by (intros ->; apply Hx; left).
  lia.
Qed.

Lemma qsort_strict a : NoDup a -> Sorted Z.lt (qsort a).
Proof.
  intros Hnd. apply Sorted_cmp_le_lt; [apply qsort_Sorted |].
  by rewrite qsort_Permutation.
Qed.

Lemma cut_ticket_Permutation pool : cut_ticket pool ≡ₚ take 7 pool.
Proof.
  unfold cut_ticket. rewrite qsort_Permutation. by rewrite take_drop.
Qed.

Lemma cut_ticket_main pool :
  (7 <= length pool)%nat -> main_numbers (cut_ticket pool) = qsort (take 6 pool).
Proof.
  intros Hlen. unfold main_numbers, cut_ticket.
  rewrite take_take. replace (6 `min` 7)%nat with 6%nat by reflexivity.
  rewrite take_app_length'; [reflexivity |].
  rewrite length_qsort, length_take. lia.
Qed.

Lemma cut_ticket_valid pool : pool ≡ₚ pool_init -> valid_ticket (cut_ticket pool).
Proof.
  intros Hp.
  assert (Hlen : length pool = 49%nat) by (rewrite Hp; reflexivity).
  destruct (prefix_of_shuffled 7 pool Hp) as (L7 & R7 & N7); [lia |].
  destruct (prefix_of_shuffled 6 pool Hp) as (L6 & R6 & N6); [lia |].
  unfold valid_ticket.
  rewrite cut_ticket_main by lia.
  split; [by rewrite cut_ticket_Permutation |].
  split; [by rewrite cut_ticket_Permutation |].
  split; [by rewrite cut_ticket_Permutation | by apply qsort_strict].
Qed.

Lemma draw_with_valid rs : valid_ticket (draw_with rs).
Proof. apply cut_ticket_valid, shuffle_with_Permutation. Qed.

(** C2. Every ticket of the portable variant, whatever the engine state,
    has 6 main numbers that are pairwise distinct, in [1,49] and
    ascending, and a bonus in [1,49] distinct from them; every line of
    the simple variant, whatever the state of [rand], has 6 pairwise
    distinct numbers in [1,49] in ascending order. *)
Theorem generated_tickets_valid {R : Type} (rand : R -> Z * R) (st : engine) (s : R) :
  (forall s', 0 <= (rand s').1) ->
  valid_ticket (draw_one st).1 /\ valid_line (generate_ticket rand s).1.
Proof.
  intros _. split.
  - rewrite draw_one_outputs. apply draw_with_valid.
  - unfold generate_ticket.
    pose proof (shuffle_rand_Permutation rand 48 pool_init s) as Hp.
    destruct (shuffle_rand rand 48 pool_init s) as [numbers s1]. simpl in *.
    destruct (prefix_of_shuffled 6 numbers Hp) as (L6 & R6 & N6); [lia |].
    unfold valid_line. split; [by rewrite length_qsort |].
    split; [by rewrite qsort_Permutation |].
    split; [by rewrite qsort_Permutation | by apply qsort_strict].
Qed.

Lemma generated_tickets_valid_sample :
  valid_ticket (draw_one (seed_state 71952)).1 /\
  valid_line (generate_ticket sample_rand 1).1.
Proof.
  apply (generated_tickets_valid sample_rand (seed_state 71952) 1).
  intros s'. unfold sample_rand. simpl. apply Z.mod_pos_bound. lia.
Defined.

(** * The table of fingerprints *)

Lemma insert_replicate_0 (n : nat) (h : Z) :
  (0 < n)%nat -> <[0%nat:=h]> (replicate n 0) = h :: replicate (n - 1) 0.
Proof. destruct n as [|n]; [lia |]. intros _. simpl. by rewrite Nat.sub_0_r. Qed.

Lemma insert_after (hs : list Z) (n : nat) (h : Z) :
  (0 < n)%nat ->
  <[length hs:=h]> (hs ++ replicate n 0) = (hs ++ [h]) ++ replicate (n - 1) 0.
Proof.
  intros Hn. rewrite <- (Nat.add_0_r (length hs)) at 1.
  rewrite insert_app_r, insert_replicate_0 by lia.
  by rewrite <- app_assoc.
Qed.

Lemma capacity_pos (m : nat) : 1024 <= 1024 * 2 ^ Z.of_nat m.
Proof. assert (0 < 2 ^ Z.of_nat m) by (apply Z.pow_pos_nonneg; lia). lia. Qed.

(** [remember] at the next free index keeps the shape of the table. *)
Lemma remember_next (hs : list Z) (g : guard) (h : Z) :
  guard_holds hs g ->
  exists g', remember h (Z.of_nat (length hs)) g = Some g' /\
             guard_holds (hs ++ [h]) g'.
Proof.
  unfold guard_holds, remember. destruct (seen g) as [tbl|] eqn:Eg.
  - intros ([m Hm] & Hle & ->).
    pose proof (capacity_pos m) as Hpos. rewrite <- Hm in Hpos.
    destruct (decide (capacity g <= Z.of_nat (length hs))) as [Hfull|Hfree].
    + (* the table is full: it doubles *)
      assert (Hlen : Z.to_nat (capacity g) = length hs) by lia.
      rewrite Eg. cbn [fmap option_fmap option_map seen capacity].
      unfold grow. rewrite Z.div_mul by lia.
      rewrite Hlen, Nat.sub_diag. cbn [replicate]. rewrite app_nil_r.
      rewrite resize_all.
      rewrite decide_True by (rewrite length_app, length_replicate; lia).
      eexists. split; [reflexivity |]. cbn [seen capacity].
      split; [exists (S m); rewrite Hm, Nat2Z.inj_succ, Z.pow_succ_r; lia |].
      split; [rewrite length_app; simpl; lia |].
      rewrite Nat2Z.id, insert_after by lia. f_equal. f_equal.
      rewrite length_app. simpl. lia.
    + rewrite Eg. cbn [seen capacity].
      rewrite decide_True by (rewrite length_app, length_replicate; lia).
      eexists. split; [reflexivity |]. cbn [seen capacity].
      split; [by exists m |].
      split; [rewrite length_app; simpl; lia |].
      rewrite Nat2Z.id, insert_after by lia. f_equal.
      rewrite length_app. simpl. f_equal. lia.
  - intros [-> Hc]. cbn [seen capacity length].
    rewrite decide_False by lia. cbn [seen capacity].
    rewrite decide_True by (rewrite length_replicate; lia).
    eexists. split; [reflexivity |]. cbn [seen capacity].
    split; [exists 0%nat; reflexivity |].
    split; [simpl; lia |]. reflexivity.
Qed.

Lemma guard_holds_length hs g tbl :
  guard_holds hs g -> seen g = Some tbl ->
  length tbl = Z.to_nat (capacity g) /\ 1024 <= capacity g.
Proof.
  unfold guard_holds. intros H E. rewrite E in H.
  destruct H as ([m Hm] & Hle & ->).
  pose proof (capacity_pos m). rewrite length_app, length_replicate. lia.
Qed.

Lemma land_mask (cap e x : Z) :
  0 <= e -> cap = 2 ^ e -> Z.land x (cap - 1) = x mod cap.
Proof.
  intros He ->. rewrite <- Z.land_ones by lia.
  by rewrite Z.ones_equiv, <- Z.sub_1_r.
Qed.

(** A zero slot [d] steps ahead of [i] stops the probe within [d + 1]
    readings. *)
Lemma probe_reaches_zero (tbl : list Z) (cap e h : Z) (d : nat) :
  0 <= e -> cap = 2 ^ e -> length tbl = Z.to_nat cap ->
  forall i fuel,
    0 <= i < cap ->
    tbl !! Z.to_nat ((i + Z.of_nat d) mod cap) = Some 0 ->
    (d < fuel)%nat ->
    exists b, probe fuel tbl (cap - 1) h i = Ret b.
Proof.
  intros He Hcap Hlen. induction d as [|d IH]; intros i fuel Hi Hz Hf.
  - destruct fuel as [|fuel]; [lia |].
    rewrite Z.add_0_r, Z.mod_small in Hz by lia.
    cbn [probe]. rewrite Hz. rewrite decide_True by reflexivity. by exists false.
  - destruct fuel as [|fuel]; [lia |].
    cbn [probe].
    destruct (lookup_lt_is_Some_2 tbl (Z.to_nat i)) as [v Hv]; [lia |].
    rewrite Hv.
    destruct (decide (v = 0)); [by exists false |].
    destruct (decide (v = h)); [by exists true |].
    rewrite (land_mask cap e) by assumption.
    apply IH; [apply Z.mod_pos_bound; lia | | lia].
    rewrite Z.add_mod_idemp_l by lia.
    replace (i + 1 + Z.of_nat d) with (i + Z.of_nat (S d)) by lia. exact Hz.
Qed.

Lemma already_seen_returns (g : guard) (h : Z) (fuel : nat) :
  well_formed g -> has_free_slot g ->
  (Z.to_nat (capacity g) <= fuel)%nat ->
  exists b, already_seen fuel g h = Ret b.
Proof.
  unfold well_formed, has_free_slot, already_seen.
  destruct (seen g) as [tbl|]; [| by exists false].
  intros [(e & He & Hcap) Hlen] Hfree Hfuel.
  apply list_elem_of_lookup in Hfree as [z Hz].
  assert (Hzlt : (z < length tbl)%nat) by (by eapply lookup_lt_Some).
  assert (Hpos : 0 < capacity g) by (rewrite Hcap; apply Z.pow_pos_nonneg; lia).
  cbn zeta. rewrite (land_mask _ e) by assumption.
  set (i := h mod capacity g).
  assert (Hi : 0 <= i < capacity g) by (apply Z.mod_pos_bound; lia).
  apply (probe_reaches_zero tbl _ e h (Z.to_nat ((Z.of_nat z - i) mod capacity g)));
    try assumption.
  - pose proof (Z.mod_pos_bound (Z.of_nat z - i) (capacity g) Hpos).
    rewrite Z2Nat.id by lia.
    rewrite Z.add_mod_idemp_r by lia.
    replace (i + (Z.of_nat z - i)) with (Z.of_nat z) by lia.
    rewrite Z.mod_small by lia. by rewrite Nat2Z.id.
  - pose proof (Z.mod_pos_bound (Z.of_nat z - i) (capacity g) Hpos). lia.
Qed.

(** A full table that does not hold [h] keeps the probe going. *)
Lemma probe_full_hangs (tbl : list Z) (cap e h : Z) :
  0 <= e -> cap = 2 ^ e -> length tbl = Z.to_nat cap ->
  Forall (fun v => v <> 0 /\ v <> h) tbl ->
  forall fuel i, 0 <= i < cap -> probe fuel tbl (cap - 1) h i = Hang Lookup.
Proof.
  intros He Hcap Hlen Hall. induction fuel as [|fuel IH]; intros i Hi; [reflexivity |].
  cbn [probe].
  destruct (lookup_lt_is_Some_2 tbl (Z.to_nat i)) as [v Hv]; [lia |].
  rewrite Hv.
  destruct (Forall_lookup_1 _ _ _ _ Hall Hv) as [Hv0 Hvh].
  rewrite !decide_False by assumption.
  rewrite (land_mask cap e) by assumption.
  apply IH, Z.mod_pos_bound. lia.
Qed.


Lemma guard_holds_well_formed hs g : guard_holds hs g -> well_formed g.
Proof.
  unfold guard_holds, well_formed. destruct (seen g) as [tbl|]; [| done].
  intros ([m Hm] & Hle & ->). pose proof (capacity_pos m) as Hpos.
  split.
  - exists (10 + Z.of_nat m). split; [lia |].
    rewrite Hm, Z.pow_add_r by lia. reflexivity.
  - rewrite length_app, length_replicate. lia.
Qed.

Lemma guard_holds_free_slot hs g :
  guard_holds hs g -> Z.of_nat (length hs) < capacity g \/ seen g = None ->
  has_free_slot g.
Proof.
  unfold guard_holds, has_free_slot. destruct (seen g) as [tbl|]; [| done].
  intros (_ & Hle & ->) [Hlt | ?]; [| done].
  apply elem_of_app. right.
  destruct (Z.to_nat (capacity g) - length hs)%nat as [|n] eqn:E; [lia |].
  simpl. left.
Qed.

(** * The run *)

Lemma draw_fresh_ret fuel lfuel st g t h st' :
  draw_fresh fuel lfuel st g = Ret (t, h, st') ->
  h = hash_ticket t /\ already_seen lfuel g h = Ret false /\ valid_ticket t.
Proof.
  revert st. induction fuel as [|fuel IH]; intros st; [discriminate |].
  cbn [draw_fresh].
  pose proof (draw_one_outputs st) as Hd.
  destruct (draw_one st) as [ticket st1]. cbn [fst] in Hd.
  destruct (already_seen lfuel g (hash_ticket ticket)) as [[|]| |] eqn:E.
  - apply IH.
  - intros [= <- <- <-]. split; [reflexivity |]. split; [exact E |].
    rewrite Hd. apply draw_with_valid.
  - intros [=].
  - intros [=].
Qed.

(** A lookup that returns keeps [draw_fresh] from hanging in it. *)
Lemma draw_fresh_lookup_returns fuel lfuel st g :
  (forall h, exists b, already_seen lfuel g h = Ret b) ->
  (exists r, draw_fresh fuel lfuel st g = Ret r) \/
  draw_fresh fuel lfuel st g = Hang Redraw.
Proof.
  intros Hl. revert st. induction fuel as [|fuel IH]; intros st; [by right |].
  cbn [draw_fresh]. destruct (draw_one st) as [ticket st1].
  destruct (Hl (hash_ticket ticket)) as [[|] ->]; [apply IH | left; eauto].
Qed.

Lemma start_holds st : run_holds (start st) 1.
Proof. by split. Qed.

(** One accepted ticket: the state after it. *)
Lemma accept_holds s n t h st :
  run_holds s n -> h = hash_ticket t ->
  exists g, remember h (n - 1) (table s) = Some g /\
            run_holds {| rng := st; table := g; printed := printed s ++ [t] |} (n + 1).
Proof.
  intros [-> Hg] ->.
  destruct (remember_next _ _ (hash_ticket t) Hg) as (g & Hr & Hg').
  rewrite length_fmap in Hr.
  exists g. split.
  - rewrite <- Hr. f_equal. lia.
  - split; cbn [printed table].
    + rewrite length_app. simpl. lia.
    + by rewrite fmap_app.
Qed.

Lemma tickets_holds fuel lfuel k :
  forall n s s',
    run_holds s n -> tickets fuel lfuel k n s = Ret s' ->
    run_holds s' (n + Z.of_nat k) /\
    exists new, printed s' = printed s ++ new /\ length new = k /\
                Forall valid_ticket new.
Proof.
  induction k as [|k IH]; intros n s s' Hs.
  - intros [= <-]. rewrite Z.add_0_r.
    split; [exact Hs |]. exists []. by rewrite app_nil_r.
  - cbn [tickets].
    destruct (draw_fresh fuel lfuel (rng s) (table s)) as [[[t h] st]| |] eqn:Ed;
      [| intros [=] | intros [=]].
    apply draw_fresh_ret in Ed as (Hh & _ & Hv).
    destruct (accept_holds s n t h st Hs Hh) as (g & -> & Hs').
    intros Ht. apply (IH _ _ _ Hs') in Ht as (H1 & new & H2 & H3 & H4).
    cbn [printed] in H2.
    split; [replace (n + Z.of_nat (S k)) with (n + 1 + Z.of_nat k) by lia; exact H1 |].
    exists (t :: new). split; [by rewrite H2, <- app_assoc |].
    split; [simpl; lia | by constructor].
Qed.

(** C9. After [k] tickets were accepted, the table holds their
    fingerprints at the indices 0 to [k - 1], in the order in which the
    tickets were printed, and zeros above them: the slot of a
    fingerprint is its acceptance index. *)
Theorem table_filled_in_order (fuel lfuel k : nat) (st : engine) (s : run) :
  tickets fuel lfuel k 1 (start st) = Ret s ->
  length (printed s) = k /\
  match seen (table s) with
  | None => k = 0%nat
  | Some tbl =>
      length tbl = Z.to_nat (capacity (table s)) /\
      (k <= length tbl)%nat /\
      (forall i t, printed s !! i = Some t -> tbl !! i = Some (hash_ticket t)) /\
      (forall i, (k <= i < length tbl)%nat -> tbl !! i = Some 0)
  end.
Proof.
  intros Ht.
  destruct (tickets_holds _ _ _ _ _ _ (start_holds st) Ht)
    as ([_ Hg] & new & Hnew & Hlen & _).
  cbn [start printed app] in Hnew. rewrite <- Hnew in Hlen.
  split; [exact Hlen |].
  unfold guard_holds in Hg. destruct (seen (table s)) as [tbl|].
  - destruct Hg as ([m Hm] & Hle & ->).
    rewrite length_fmap in *. rewrite Hlen in *.
    pose proof (capacity_pos m).
    rewrite length_app, length_fmap, length_replicate, Hlen.
    split; [lia |]. split; [lia |]. split.
    + intros i t Hi. rewrite lookup_app_l by (rewrite length_fmap; by eapply lookup_lt_Some).
      by rewrite list_lookup_fmap, Hi.
    + intros i Hi. rewrite lookup_app_r by (rewrite length_fmap; lia).
      apply lookup_replicate_2. rewrite length_fmap. lia.
  - destruct Hg as [Hnil _]. apply fmap_nil_inv in Hnil. rewrite Hnil in Hlen.
    by rewrite <- Hlen.
Qed.

(** * Loops that end and loops that do not *)

Lemma probe_no_fault (tbl : list Z) (cap e h : Z) :
  0 <= e -> cap = 2 ^ e -> length tbl = Z.to_nat cap ->
  forall fuel i, 0 <= i < cap -> probe fuel tbl (cap - 1) h i <> Fault.
Proof.
  intros He Hcap Hlen. induction fuel as [|fuel IH]; intros i Hi; [discriminate |].
  cbn [probe].
  destruct (lookup_lt_is_Some_2 tbl (Z.to_nat i)) as [v Hv]; [lia |].
  rewrite Hv.
  destruct (decide (v = 0)); [discriminate |].
  destruct (decide (v = h)); [discriminate |].
  rewrite (land_mask cap e) by assumption.
  apply IH, Z.mod_pos_bound. lia.
Qed.

Lemma already_seen_no_fault fuel g h : well_formed g -> already_seen fuel g h <> Fault.
Proof.
  unfold well_formed, already_seen. destruct (seen g) as [tbl|]; [| discriminate].
  intros [(e & He & Hcap) Hlen].
  assert (Hpos : 0 < capacity g) by (rewrite Hcap; apply Z.pow_pos_nonneg; lia).
  cbn zeta. rewrite (land_mask _ e) by assumption.
  apply (probe_no_fault tbl _ e); try assumption.
  apply Z.mod_pos_bound. lia.
Qed.

(** [Ret false] comes from reading a zero slot. *)
Lemma probe_false_zero fuel tbl mask h i :
  probe fuel tbl mask h i = Ret false -> 0 ∈ tbl.
Proof.
  revert i. induction fuel as [|fuel IH]; intros i; [discriminate |].
  cbn [probe]. destruct (tbl !! Z.to_nat i) as [v|] eqn:Hv; [| discriminate].
  destruct (decide (v = 0)) as [->|]; [intros _; by eapply list_elem_of_lookup_2 |].
  destruct (decide (v = h)); [discriminate | apply IH].
Qed.

Lemma draw_fresh_no_fault fuel lfuel st g :
  well_formed g -> draw_fresh fuel lfuel st g <> Fault.
Proof.
  intros Hg. revert st. induction fuel as [|fuel IH]; intros st; [discriminate |].
  cbn [draw_fresh]. destruct (draw_one st) as [ticket st1].
  pose proof (already_seen_no_fault lfuel g (hash_ticket ticket) Hg) as Hn.
  destruct (already_seen lfuel g (hash_ticket ticket)) as [[|]| |];
    [apply IH | discriminate | discriminate | contradiction].
Qed.

Lemma tickets_no_fault fuel lfuel k :
  forall n s, run_holds s n -> tickets fuel lfuel k n s <> Fault.
Proof.
  induction k as [|k IH]; intros n s Hs; [discriminate |].
  cbn [tickets].
  pose proof (draw_fresh_no_fault fuel lfuel (rng s) (table s)
                (guard_holds_well_formed _ _ (proj2 Hs))) as Hn.
  destruct (draw_fresh fuel lfuel (rng s) (table s)) as [[[t h] st]| |] eqn:Ed;
    [| discriminate | contradiction].
  apply draw_fresh_ret in Ed as (Hh & _ & _).
  destruct (accept_holds s n t h st Hs Hh) as (g & -> & Hs').
  by apply IH.
Qed.

(** The rounds of the [for] loop, one after the other. *)
Lemma tickets_app fuel lfuel a b :
  forall n s,
    tickets fuel lfuel (a + b) n s =
    match tickets fuel lfuel a n s with
    | Ret s1 => tickets fuel lfuel b (n + Z.of_nat a) s1
    | Hang l => Hang l
    | Fault => Fault
    end.
Proof.
  induction a as [|a IH]; intros n s.
  - cbn [tickets Nat.add]. by rewrite Z.add_0_r.
  - cbn [tickets Nat.add].
    destruct (draw_fresh fuel lfuel (rng s) (table s)) as [[[t h] st]| |]; try reflexivity.
    destruct (remember h (n - 1) (table s)) as [g|]; [| reflexivity].
    rewrite IH. replace (n + 1 + Z.of_nat a) with (n + Z.of_nat (S a)) by lia.
    reflexivity.
Qed.

(** The table does not grow while fewer than 1025 fingerprints are stored. *)
Lemma remember_capacity hs g g' h :
  guard_holds hs g -> capacity g <= 1024 -> (length hs < 1024)%nat ->
  remember h (Z.of_nat (length hs)) g = Some g' -> capacity g' = 1024.
Proof.
  unfold guard_holds, remember. destruct (seen g) as [tbl|] eqn:Eg.
  - intros ([m Hm] & Hle & ->) Hcap Hlen. pose proof (capacity_pos m).
    rewrite decide_False by lia. rewrite Eg.
    destruct (decide _); [| discriminate]. intros [= <-]. cbn [capacity]. lia.
  - intros _ _ Hlen. cbn [seen capacity].
    rewrite decide_False by lia. cbn [seen capacity].
    destruct (decide _); [| discriminate]. by intros [= <-].
Qed.

Lemma tickets_capacity fuel lfuel k :
  forall n s s',
    run_holds s n -> capacity (table s) <= 1024 ->
    (length (printed s) + k <= 1024)%nat ->
    tickets fuel lfuel k n s = Ret s' -> capacity (table s') <= 1024.
Proof.
  induction k as [|k IH]; intros n s s' Hs Hcap Hlen.
  - by intros [= <-].
  - cbn [tickets].
    destruct (draw_fresh fuel lfuel (rng s) (table s)) as [[[t h] st]| |] eqn:Ed;
      [| intros [=] | intros [=]].
    apply draw_fresh_ret in Ed as (Hh & _ & _).
    destruct (accept_holds s n t h st Hs Hh) as (g & Hr & Hs').
    rewrite Hr. apply (IH _ _ _ Hs').
    + cbn [table]. destruct Hs as [-> Hg].
      replace (Z.of_nat (length (printed s)) + 1 - 1)
        with (Z.of_nat (length (hash_ticket <$> printed s))) in Hr
        by (rewrite length_fmap; lia).
      rewrite (remember_capacity _ _ _ _ Hg Hcap) with (2 := Hr); [lia |].
      rewrite length_fmap. lia.
    + cbn [printed]. rewrite length_app. simpl. lia.
Qed.

(** With room left in a table of 1024 words the rounds do not hang in a
    lookup. *)
Lemma tickets_lookups_return fuel lfuel k :
  (1024 <= lfuel)%nat ->
  forall n s,
    run_holds s n -> capacity (table s) <= 1024 ->
    (length (printed s) + k <= 1024)%nat ->
    tickets fuel lfuel k n s <> Hang Lookup.
Proof.
  intros Hfuel. induction k as [|k IH]; intros n s Hs Hcap Hlen; [discriminate |].
  cbn [tickets].
  assert (Hl : forall h, exists b, already_seen lfuel (table s) h = Ret b).
  { intros h. destruct Hs as [_ Hg]. apply already_seen_returns.
    - by eapply guard_holds_well_formed.
    - apply (guard_holds_free_slot _ _ Hg).
      destruct (seen (table s)) as [tbl|] eqn:E; [left | by right].
      destruct (guard_holds_length _ _ _ Hg E). rewrite length_fmap. lia.
    - lia. }
  destruct (draw_fresh_lookup_returns fuel lfuel (rng s) (table s) Hl) as [[r Hr] | Hr];
    rewrite Hr; [| discriminate].
  destruct r as [[t h] st].
  pose proof Hr as Ed. apply draw_fresh_ret in Ed as (Hh & _ & _).
  destruct (accept_holds s n t h st Hs Hh) as (g & Hg & Hs').
  rewrite Hg. apply (IH _ _ Hs').
  - apply (tickets_capacity fuel lfuel 1 n s); [exact Hs | exact Hcap | lia |].
    cbn [tickets]. by rewrite Hr, Hg.
  - cbn [printed]. rewrite length_app. simpl. lia.
Qed.

(** C10. A lookup returns whenever the table has a zero slot, within as
    many readings as the table has slots; and in a run of at most 1024
    tickets every lookup finds such a slot, so that no lookup hangs
    (nor reads outside the table). *)
Theorem lookups_terminate (g : guard) (h : Z) (fuel lfuel : nat) (want : Z) (st : engine) :
  (well_formed g -> has_free_slot g -> (Z.to_nat (capacity g) <= lfuel)%nat ->
   exists b, already_seen lfuel g h = Ret b) /\
  (want <= 1024 -> (1024 <= lfuel)%nat ->
   lotto fuel lfuel want st <> Hang Lookup /\ lotto fuel lfuel want st <> Fault).
Proof.
  split; [apply already_seen_returns |].
  intros Hwant Hfuel. unfold lotto.
  pose proof (tickets_lookups_return fuel lfuel (Z.to_nat want) Hfuel 1 (start st)
                (start_holds st)) as Hl.
  pose proof (tickets_no_fault fuel lfuel (Z.to_nat want) 1 (start st) (start_holds st)) as Hf.
  cbn [start table printed guard_init capacity length] in Hl.
  destruct (tickets fuel lfuel (Z.to_nat want) 1 (start st)) as [s|l|].
  - split; discriminate.
  - split; [| discriminate]. intros [= ->]. apply Hl; [lia | lia | reflexivity].
  - contradiction.
Qed.

Lemma lookups_terminate_small :
  (exists b, already_seen 1024 one_entry 5 = Ret b) /\
  lotto 1 1024 3 (seed_rng launch) <> Hang Lookup.
Proof.
  destruct (lookups_terminate one_entry 5 1 1024 3 (seed_rng launch)) as [H1 H2].
  split.
  - apply H1.
    + split; [exists 10; split; [lia | reflexivity] | reflexivity].
    + right. left.
    + vm_compute. lia.
  - apply H2; lia.
Defined.

Lemma table_filled_in_order_three :
  exists s,
    tickets 1 1024 3 1 (start (seed_rng launch)) = Ret s /\
    length (printed s) = 3%nat /\
    (forall i t, printed s !! i = Some t ->
                 default [] (seen (table s)) !! i = Some (hash_ticket t)).
Proof.
  assert (E : exists s, tickets 1 1024 3 1 (start (seed_rng launch)) = Ret s)
    by (vm_compute; eexists; reflexivity).
  destruct E as [s E]. exists s. split; [exact E |].
  destruct (table_filled_in_order _ _ _ _ _ E) as [Hlen Htbl].
  split; [exact Hlen |].
  destruct (seen (table s)) as [tbl|]; [| discriminate Htbl].
  destruct Htbl as (_ & _ & Hin & _). exact Hin.
Defined.





(** C1 (the code on a launch that repeats a ticket). Started in the
    environment [launch] with the argument 94, the program prints 94
    tickets of which the 84th and the 94th are the same. *)
Theorem duplicate_tickets_printed :
  exists f,
    main 1 128 ["lotto649"; "94"]%string launch = Ret f /\
    exit_status f = 0 /\ length (stdout f) = 94%nat /\
    stdout f !! 83%nat = Some [3; 8; 11; 19; 23; 41; 48] /\
    stdout f !! 93%nat = Some [3; 8; 11; 19; 23; 41; 48] /\
    ~ NoDup (stdout f).
Proof.
  assert (E : repeats_at 83 93 [3; 8; 11; 19; 23; 41; 48]
                (main 1 128 ["lotto649"; "94"]%string launch) = true)
    by (vm_compute; reflexivity).
  destruct (main 1 128 ["lotto649"; "94"]%string launch) as [f| |];
    [| discriminate E | discriminate E].
  exists f. split; [reflexivity |].
  apply bool_decide_eq_true in E as (H0 & H1 & H2 & H3).
  repeat (split; [assumption |]).
  intros Hnd. pose proof (NoDup_lookup _ _ _ _ Hnd H2 H3). discriminate.
Qed.

(** * The end of a run *)

Lemma lotto_ret fuel lfuel want st f :
  lotto fuel lfuel want st = Ret f ->
  exit_status f = 0 /\ stderr f = EmptyString /\
  tickets fuel lfuel (Z.to_nat want) 1 (start st) =
    Ret {| rng := match tickets fuel lfuel (Z.to_nat want) 1 (start st) with
                  | Ret s => rng s
                  | _ => st
                  end;
           table := match tickets fuel lfuel (Z.to_nat want) 1 (start st) with
                    | Ret s => table s
                    | _ => guard_init
                    end;
           printed := stdout f |}.
Proof.
  unfold lotto.
  destruct (tickets fuel lfuel (Z.to_nat want) 1 (start st)) as [s| |];
    [| intros [=] | intros [=]].
  intros [= <-]. cbn [exit_status stderr stdout]. by destruct s.
Qed.

(** The lookup for ticket 1025 meets a full table: it returns "not
    seen" only by reading a fingerprint equal to 0. *)
Lemma full_table_lookup s lfuel h :
  run_holds s 1025 -> capacity (table s) <= 1024 ->
  already_seen lfuel (table s) h = Ret false ->
  exists t, t ∈ printed s /\ hash_ticket t = 0.
Proof.
  intros [Hn Hg] Hcap Hl.
  unfold guard_holds in Hg. unfold already_seen in Hl.
  destruct (seen (table s)) as [tbl|].
  - destruct Hg as ([m Hm] & Hle & ->). pose proof (capacity_pos m).
    rewrite length_fmap in *.
    apply probe_false_zero in Hl.
    apply elem_of_app in Hl as [Hl | Hl].
    + apply list_elem_of_fmap in Hl as (t & Ht & Hin). eauto.
    + replace (Z.to_nat (capacity (table s)) - length (printed s))%nat with 0%nat in Hl by lia.
      by apply elem_of_nil in Hl.
  - destruct Hg as [Hnil _]. apply fmap_nil_inv in Hnil. rewrite Hnil in Hn.
    simpl in Hn. lia.
Qed.

Lemma long_run_zero_fingerprint fuel lfuel (k : nat) st s :
  tickets fuel lfuel (1024 + S k) 1 (start st) = Ret s ->
  exists t, t ∈ take 1024 (printed s) /\ hash_ticket t = 0.
Proof.
  rewrite tickets_app.
  destruct (tickets fuel lfuel 1024 1 (start st)) as [s1| |] eqn:E1;
    [| intros [=] | intros [=]].
  intros E2.
  destruct (tickets_holds _ _ _ _ _ _ (start_holds st) E1) as (Hs1 & new & Hnew & Hlen & _).
  cbn [start printed app] in Hnew.
  assert (Hcap : capacity (table s1) <= 1024).
  { apply (tickets_capacity _ _ _ _ _ _ (start_holds st)) in E1;
      [exact E1 | cbn; lia | cbn; lia]. }
  destruct (tickets_holds _ _ _ _ _ _ Hs1 E2) as (_ & new2 & Hnew2 & _ & _).
  rewrite Hnew2, take_app_length' by congruence.
  cbn [tickets] in E2.
  destruct (draw_fresh fuel lfuel (rng s1) (table s1)) as [[[t h] st1]| |] eqn:Ed;
    [| discriminate E2 | discriminate E2].
  apply draw_fresh_ret in Ed as (_ & Hl & _).
  exact (full_table_lookup s1 lfuel h Hs1 Hcap Hl).
Qed.

Lemma already_seen_full_hangs (g : guard) (tbl : list Z) (h : Z) (fuel : nat) :
  well_formed g -> seen g = Some tbl ->
  Forall (fun v => v <> 0 /\ v <> h) tbl ->
  already_seen fuel g h = Hang Lookup.
Proof.
  unfold well_formed, already_seen. intros Hw E Hall. rewrite E in *.
  destruct Hw as [(e & He & Hcap) Hlen].
  assert (Hpos : 0 < capacity g) by (rewrite Hcap; apply Z.pow_pos_nonneg; lia).
  cbn zeta. rewrite (land_mask _ e) by assumption.
  apply (probe_full_hangs tbl _ e); try assumption.
  apply Z.mod_pos_bound. lia.
Qed.

Lemma draws_succ (m : nat) (st : engine) :
  draws (S m) st = (draw_one st).1 :: draws m (draw_one st).2.
Proof. cbn [draws]. by destruct (draw_one st). Qed.

(** The redraw loop has no bound of its own: while the draws are
    reported as seen it is still running, however many were made. *)
Lemma draw_fresh_all_seen (lfuel : nat) (g : guard) (fuel : nat) :
  forall st,
    Forall (fun d => already_seen lfuel g (hash_ticket d) = Ret true) (draws fuel st) ->
    draw_fresh fuel lfuel st g = Hang Redraw.
Proof.
  induction fuel as [|fuel IH]; intros st Hall; [reflexivity |].
  rewrite draws_succ in Hall. apply Forall_cons in Hall as [Hseen Hall].
  cbn [draw_fresh]. destruct (draw_one st) as [t st1]. cbn [fst snd] in Hseen, Hall.
  rewrite Hseen. by apply IH.
Qed.

(** A run is in one of its loops or has ended well: it has no other end. *)
Lemma lotto_hang_or_done (fuel lfuel : nat) (want : Z) (st : engine) :
  (exists l, lotto fuel lfuel want st = Hang l) \/
  (exists f, lotto fuel lfuel want st = Ret f /\
             exit_status f = 0 /\ stderr f = EmptyString /\
             length (stdout f) = Z.to_nat want).
Proof.
  unfold lotto.
  pose proof (tickets_no_fault fuel lfuel (Z.to_nat want) 1 (start st) (start_holds st)) as Hf.
  destruct (tickets fuel lfuel (Z.to_nat want) 1 (start st)) as [s|l|] eqn:Ht;
    [right | left; by exists l | contradiction].
  eexists. split; [reflexivity |]. cbn [exit_status stderr stdout].
  split; [reflexivity |]. split; [reflexivity |].
  destruct (tickets_holds _ _ _ _ _ _ (start_holds st) Ht) as (_ & new & Hnew & Hlen & _).
  cbn [start printed app] in Hnew. congruence.
Qed.

(** C3 (as the code has it). There is no exhaustion error: whatever the
    requested count and however long the run has lasted, it is either
    still inside one of its loops or it has ended with exit status 0,
    no message and exactly the requested number of tickets printed.
    The redraw loop has no bound: in any state of the engine and of the
    table, as long as [already_seen] reports the drawn tickets as seen,
    it goes on drawing. *)
Theorem no_exhaustion_error (fuel lfuel : nat) (want : Z) (st0 st : engine) (g : guard) :
  ((exists l, lotto fuel lfuel want st0 = Hang l) \/
   (exists f, lotto fuel lfuel want st0 = Ret f /\
              exit_status f = 0 /\ stderr f = EmptyString /\
              length (stdout f) = Z.to_nat want)) /\
  (Forall (fun d => already_seen lfuel g (hash_ticket d) = Ret true) (draws fuel st) ->
   draw_fresh fuel lfuel st g = Hang Redraw).
Proof.
  split; [apply lotto_hang_or_done | apply draw_fresh_all_seen].
Qed.

(** The run of [relaunch] asked for 601304089 tickets, one more than
    there are: with 52 tickets printed, its next draw is reported as
    seen and the redraw loop goes round. *)
Lemma no_exhaustion_error_above :
  ((exists l, lotto 1 1024 601304089 (seed_rng relaunch) = Hang l) \/
   (exists f, lotto 1 1024 601304089 (seed_rng relaunch) = Ret f /\
              exit_status f = 0 /\ stderr f = EmptyString /\
              length (stdout f) = Z.to_nat 601304089)) /\
  tickets 1 1024 52 1 (start (seed_rng relaunch)) = Ret (after 52 relaunch) /\
  draw_fresh 1 1024 (rng (after 52 relaunch)) (table (after 52 relaunch)) = Hang Redraw.
Proof.
  destruct (no_exhaustion_error 1 1024 601304089 (seed_rng relaunch)
              (rng (after 52 relaunch)) (table (after 52 relaunch))) as [H1 H2].
  split; [exact H1 |]. split; [vm_compute; reflexivity |]. apply H2.
  rewrite draws_succ. cbn [draws].
  apply Forall_cons_2; [vm_compute; reflexivity | apply Forall_nil_2].
Defined.

(** C3 (the claim at a count above the number of tickets). Asked for
    601304089 tickets, one more than there are, no run ends with an
    exit status other than 0 or with a message. *)
Lemma exhaustion_not_reported :
  ~ exists fuel lfuel f,
      lotto fuel lfuel 601304089 (seed_rng launch) = Ret f /\
      (exit_status f <> 0 \/ stderr f <> EmptyString).
Proof.
  intros (fuel & lfuel & f & Hf & Hne).
  apply lotto_ret in Hf as (H0 & H1 & _). tauto.
Qed.

(** * The ticket count argument *)

Lemma strtol_spec (arg : string) :
  strtol arg =
  if starts_numeric arg
  then (clamp_long (value arg), (digits 0 (split_sign (skip_spaces arg)).2).2)
  else (0, arg).
Proof.
  unfold strtol, starts_numeric, value.
  destruct (split_sign (skip_spaces arg)) as [negative s]. cbn [snd].
  destruct s as [|c s]; [reflexivity |].
  destruct (digit c) as [d|] eqn:Ed.
  - rewrite bool_decide_eq_true_2 by eauto.
    by destruct (digits 0 (String c s)).
  - rewrite bool_decide_eq_false_2; [reflexivity |]. by intros [? ?].
Qed.

Lemma clamp_long_below (v : Z) : v < 1 -> clamp_long v < 1.
Proof. unfold clamp_long, LONG_MIN, LONG_MAX. lia. Qed.

Lemma parse_count_fallback (prog arg : string) (rest : list string) :
  numeric arg = false \/ value arg < 1 ->
  parse_count (prog :: arg :: rest) = 5.
Proof.
  intros H. unfold parse_count. rewrite strtol_spec. unfold numeric in H.
  destruct (starts_numeric arg).
  - destruct ((digits 0 (split_sign (skip_spaces arg)).2).2) as [|c r]; [| reflexivity].
    destruct H as [H | H]; [discriminate H |].
    apply clamp_long_below in H. by rewrite decide_False by lia.
  - destruct arg; [by rewrite decide_False by lia | reflexivity].
Qed.

Lemma atoi_not_positive (arg : string) :
  starts_numeric arg = false \/ - 2 ^ 31 <= value arg <= 0 -> atoi arg <= 0.
Proof.
  intros H. unfold atoi. rewrite strtol_spec.
  destruct (starts_numeric arg); [| by vm_compute].
  destruct H as [H | H]; [discriminate H |]. cbn [fst].
  unfold clamp_long, LONG_MIN, LONG_MAX, to_int.
  rewrite Z.min_r, Z.max_r by lia.
  rewrite Z.mod_small by lia. lia.
Qed.

Lemma length_generate {R} (rand : R -> Z * R) (count : nat) (s : R) :
  length (generate rand count s) = count.
Proof.
  revert s. induction count as [|count IH]; intros s; [reflexivity |].
  cbn [generate]. destruct (generate_ticket rand s) as [t s1]. simpl. by rewrite IH.
Qed.

Lemma main_no_fault fuel lfuel argv e : main fuel lfuel argv e <> Fault.
Proof.
  unfold main, lotto.
  pose proof (tickets_no_fault fuel lfuel (Z.to_nat (parse_count argv)) 1
                (start (seed_rng e)) (start_holds _)) as Hf.
  destruct (tickets fuel lfuel (Z.to_nat (parse_count argv)) 1 (start (seed_rng e)));
    [discriminate | discriminate | contradiction].
Qed.

Lemma main_ret fuel lfuel argv e f :
  main fuel lfuel argv e = Ret f ->
  exit_status f = 0 /\ length (stdout f) = Z.to_nat (parse_count argv).
Proof.
  unfold main. intros Hf. destruct (lotto_ret _ _ _ _ _ Hf) as (H0 & _ & Ht).
  split; [exact H0 |].
  destruct (tickets_holds _ _ _ _ _ _ (start_holds _) Ht) as (_ & new & Hnew & Hlen & _).
  cbn [start printed app] in Hnew. congruence.
Qed.

(** The argument policy of the two variants. Without an argument both
    print 5 tickets. The portable variant falls back to 5 without a
    message for an argument that is not a decimal number up to its end
    or whose value is below 1; it never reads outside its table, and a
    run that ends exits with status 0 after printing the count it
    settled on. The simple variant prints nothing and exits with status
    1 and a message for an argument that does not begin with a decimal
    number, or whose leading number is an [int] not above 0. *)
Theorem argument_policy {R : Type} (srand : Z -> R) (rand : R -> Z * R)
    (prog arg : string) (rest : list string) (now : Z)
    (fuel lfuel : nat) (e : environment) :
  parse_count [prog] = 5 /\
  (numeric arg = false \/ value arg < 1 -> parse_count (prog :: arg :: rest) = 5) /\
  (forall argv, main fuel lfuel argv e <> Fault) /\
  (forall argv f, main fuel lfuel argv e = Ret f ->
     exit_status f = 0 /\ length (stdout f) = Z.to_nat (parse_count argv)) /\
  (let r := main_simple srand rand [prog] now in
   exit_status r = 0 /\ length (stdout r) = 5%nat) /\
  (starts_numeric arg = false \/ - 2 ^ 31 <= value arg <= 0 ->
   let r := main_simple srand rand (prog :: arg :: rest) now in
   exit_status r = 1 /\
   stderr r = invalid_count /\
   stdout r = []).
Proof.
  split; [reflexivity |].
  split; [apply parse_count_fallback |].
  split; [intros argv; apply main_no_fault |].
  split; [intros argv f; apply main_ret |].
  split.
  - cbn [main_simple exit_status stdout]. split; [reflexivity |]. apply length_generate.
  - intros H r. subst r. cbn [main_simple].
    rewrite decide_True by (by apply atoi_not_positive).
    split; [reflexivity |]. split; reflexivity.
Qed.

Lemma argument_policy_samples :
  (exists f, main 1 1024 ["lotto649"]%string launch = Ret f /\ length (stdout f) = 5%nat) /\
  parse_count ["lotto649"; "20x"]%string = 5 /\
  parse_count ["lotto649"; "-3"]%string = 5 /\
  exit_status (main_simple sample_srand sample_rand ["lotto649"; "abc"]%string 0) = 1 /\
  exit_status (main_simple sample_srand sample_rand ["lotto649"; "0"]%string 0) = 1.
Proof.
  pose proof (argument_policy sample_srand sample_rand "lotto649" "20x" [] 0 1 1 launch)
    as (_ & H1 & _).
  pose proof (argument_policy sample_srand sample_rand "lotto649" "-3" [] 0 1 1 launch)
    as (_ & H2 & _).
  pose proof (argument_policy sample_srand sample_rand "lotto649" "abc" [] 0 1 1 launch)
    as (_ & _ & _ & _ & _ & H3).
  pose proof (argument_policy sample_srand sample_rand "lotto649" "0" [] 0 1 1 launch)
    as (_ & _ & _ & _ & _ & H4).
  split.
  { assert (E : exists f, main 1 1024 ["lotto649"]%string launch = Ret f)
      by (vm_compute; eexists; reflexivity).
    destruct E as [f E]. exists f. split; [exact E |].
    pose proof (argument_policy sample_srand sample_rand "lotto649" "" [] 0 1 1024 launch)
      as (_ & _ & _ & H0 & _).
    exact (proj2 (H0 _ _ E)). }
  split; [apply H1; left; reflexivity |].
  split; [apply H2; right; vm_compute; reflexivity |].
  split; [apply H3; left; reflexivity | apply H4; right; vm_compute; split; discriminate].
Defined.

(** * Every ticket can be drawn *)

Lemma swap_lookup_l pool i j x :
  (i < length pool)%nat -> pool !! j = Some x -> swap pool i j !! i = Some x.
Proof.
  intros Hi Hj. unfold swap.
  destruct (lookup_lt_is_Some_2 pool i Hi) as [t Ht]. rewrite Ht, Hj.
  destruct (decide (i = j)) as [<-|Hne].
  - rewrite list_lookup_insert_eq by (by rewrite length_insert). congruence.
  - rewrite list_lookup_insert_ne by congruence.
    by rewrite list_lookup_insert_eq.
Qed.

Lemma take_swap pool n i j :
  (i < n)%nat -> (j < n)%nat -> take n (swap pool i j) = swap (take n pool) i j.
Proof.
  intros Hi Hj. unfold swap. rewrite !lookup_take_lt by assumption.
  destruct (pool !! i); [| reflexivity]. destruct (pool !! j); [| reflexivity].
  by rewrite !take_insert_lt.
Qed.

Lemma drop_swap pool n i j :
  (i < n)%nat -> (j < n)%nat -> drop n (swap pool i j) = drop n pool.
Proof.
  intros Hi Hj. unfold swap.
  destruct (pool !! i); [| reflexivity]. destruct (pool !! j); [| reflexivity].
  by rewrite !drop_insert_lt.
Qed.

Lemma pick_index (j i : nat) : (j <= i)%nat -> pick (Z.of_nat j) i = j.
Proof. intros H. unfold pick. rewrite Z.mod_small by lia. apply Nat2Z.id. Qed.

(** The loop from index [i] down reaches every arrangement of the first
    [i + 1] entries. *)
Lemma shuffle_with_reaches (i : nat) :
  forall pool target : list Z,
    (i < length pool)%nat -> length target = length pool ->
    take (S i) pool ≡ₚ take (S i) target ->
    drop (S i) pool = drop (S i) target ->
    exists rs, length rs = i /\ Forall (fun r => 0 <= r <= Z.of_nat i) rs /\
               shuffle_with i pool rs = target.
Proof.
  induction i as [|i IH]; intros pool target Hi Hlen Hperm Hdrop.
  - exists []. split; [reflexivity |]. split; [constructor |]. cbn [shuffle_with].
    destruct pool as [|a pool]; [simpl in Hi; lia |].
    destruct target as [|b target]; [discriminate Hlen |].
    rewrite !firstn_cons, !take_0 in Hperm. apply Permutation_singleton_l in Hperm.
    rewrite !skipn_cons, !drop_0 in Hdrop. congruence.
  - destruct (lookup_lt_is_Some_2 target (S i)) as [x Hx]; [lia |].
    assert (Hin : x ∈ take (S (S i)) pool).
    { rewrite Hperm. apply (list_elem_of_lookup_2 _ (S i)).
      by rewrite lookup_take_lt by lia. }
    apply list_elem_of_lookup_1 in Hin as [j Hj].
    assert (Hjlt : (j < S (S i))%nat).
    { apply lookup_lt_Some in Hj. rewrite length_take in Hj. lia. }
    rewrite lookup_take_lt in Hj by assumption.
    set (pool' := swap pool (S i) j).
    assert (Hx' : pool' !! S i = Some x) by (by apply swap_lookup_l).
    destruct (IH pool' target) as (rs & Hrs & Hrange & Hsh).
    + unfold pool'. rewrite length_swap. lia.
    + unfold pool'. by rewrite length_swap.
    + apply (Permutation_app_inv_r [x]).
      rewrite <- (take_S_r pool' (S i) x Hx'), <- (take_S_r target (S i) x Hx).
      unfold pool'. rewrite take_swap by lia. by rewrite swap_Permutation.
    + rewrite (drop_S pool' x (S i) Hx'), (drop_S target x (S i) Hx).
      f_equal. unfold pool'. rewrite drop_swap by lia. exact Hdrop.
    + exists (Z.of_nat j :: rs). split; [simpl; lia |]. split.
      * constructor; [lia |]. eapply Forall_impl; [exact Hrange |]. simpl. lia.
      * cbn [shuffle_with]. rewrite pick_index by lia. exact Hsh.
Qed.

#[global] Instance cmp_le_trans : Transitive cmp_le.
Proof. intros a b c. unfold cmp_le, cmp. lia. Qed.

#[global] Instance cmp_le_antisymm : AntiSymm (=) cmp_le.
Proof. intros a b. unfold cmp_le, cmp. lia. Qed.

(** [qsort] leaves an ascending array as it is. *)
Lemma qsort_sorted_id a : Sorted Z.lt a -> qsort a = a.
Proof.
  intros Hs. apply (Sorted_unique cmp_le).
  - apply qsort_Sorted.
  - induction Hs as [|x l Hs IH Hhd]; constructor; [exact IH |].
    destruct Hhd; constructor. unfold cmp_le, cmp. lia.
  - apply qsort_Permutation.
Qed.

(** A ticket followed by the numbers it leaves out: an arrangement of
    the pool. *)
Lemma ticket_completion (o : list Z) :
  valid_ticket o ->
  o ++ filter (fun v => v ∉ o) pool_init ≡ₚ pool_init.
Proof.
  intros (Hlen & Hrange & Hnd & _).
  apply NoDup_Permutation.
  - apply NoDup_app. split; [exact Hnd |]. split.
    + intros v Hv Hf. apply list_elem_of_filter in Hf as [Hn _]. contradiction.
    + apply NoDup_filter, pool_init_NoDup.
  - apply pool_init_NoDup.
  - intros v. rewrite elem_of_app, list_elem_of_filter. split.
    + intros [Hv | [_ Hv]]; [| exact Hv].
      apply elem_of_seqZ. rewrite Forall_forall in Hrange.
      specialize (Hrange v Hv). unfold in_range in Hrange. lia.
    + intros Hv. destruct (decide (v ∈ o)); [by left | by right].
Qed.

Lemma draw_with_reaches (o : list Z) :
  valid_ticket o -> exists rs, engine_outputs rs /\ draw_with rs = o.
Proof.
  intros Ho. pose proof (ticket_completion o Ho) as Hperm.
  destruct Ho as (Hlen & Hrange & Hnd & Hsorted).
  set (target := o ++ filter (fun v => v ∉ o) pool_init) in *.
  assert (Htl : length target = 49%nat) by (rewrite Hperm; reflexivity).
  destruct (shuffle_with_reaches 48 pool_init target) as (rs & Hrs & Hr & Hsh).
  - rewrite pool_init_length. lia.
  - by rewrite Htl.
  - rewrite !take_ge by (rewrite ?Htl, ?pool_init_length; lia). by symmetry.
  - rewrite !drop_ge by (rewrite ?Htl, ?pool_init_length; lia). reflexivity.
  - exists rs. split.
    + split; [exact Hrs |]. eapply Forall_impl; [exact Hr |].
      intros r Hr'. unfold is_u64. simpl in Hr'. lia.
    + unfold draw_with, cut_ticket. rewrite Hsh. unfold target.
      rewrite (take_app_length' o) by (by rewrite Hlen).
      change (take 6 o) with (main_numbers o).
      rewrite (qsort_sorted_id _ Hsorted). apply take_drop.
Qed.

(** * Counting the sequences of engine outputs *)

Lemma length_bind_const {A B} (f : A -> list B) (c : nat) (l : list A) :
  (forall a, a ∈ l -> length (f a) = c) -> length (l ≫= f) = (length l * c)%nat.
Proof.
  induction l as [|a l IH]; intros H; [reflexivity |].
  rewrite bind_cons, length_app, IH, (H a).
  - simpl. lia.
  - left.
  - intros a' Ha'. apply H. by right.
Qed.

Lemma elem_of_words (n : nat) (alphabet : list Z) (w : list Z) :
  w ∈ words n alphabet <-> length w = n /\ Forall (fun a => a ∈ alphabet) w.
Proof.
  revert w. induction n as [|n IH]; intros w; cbn [words].
  - rewrite list_elem_of_singleton. split.
    + intros ->. by split.
    + intros [Hl _]. by destruct w.
  - rewrite list_elem_of_bind. split.
    + intros (a & Hw & Ha). apply list_elem_of_fmap in Hw as (w' & -> & Hw').
      apply IH in Hw' as [Hl Hf]. split; [simpl; lia | by constructor].
    + intros [Hl Hf]. destruct w as [|a w']; [discriminate Hl |].
      apply Forall_cons in Hf as [Ha Hf].
      exists a. split; [| exact Ha].
      apply list_elem_of_fmap. exists w'. split; [reflexivity |].
      apply IH. split; [simpl in Hl; lia | exact Hf].
Qed.

Lemma NoDup_words (n : nat) (alphabet : list Z) :
  NoDup alphabet -> NoDup (words n alphabet).
Proof.
  intros Ha. induction n as [|n IH]; cbn [words]; [apply NoDup_singleton |].
  apply NoDup_bind; [| | exact Ha].
  - intros a1 a2 w _ _ H1 H2.
    apply list_elem_of_fmap in H1 as (w1 & -> & _).
    apply list_elem_of_fmap in H2 as (w2 & E & _). congruence.
  - intros a _. apply NoDup_fmap_2; [| exact IH]. intros w1 w2. congruence.
Qed.

Lemma length_words (n : nat) (alphabet : list Z) :
  length (words n alphabet) = (length alphabet ^ n)%nat.
Proof.
  induction n as [|n IH]; [reflexivity |]. cbn [words].
  rewrite (length_bind_const _ (length alphabet ^ n)).
  - rewrite Nat.pow_succ_r'. reflexivity.
  - intros a _. by rewrite length_fmap.
Qed.

Lemma elem_of_all_outputs rs : rs ∈ all_outputs <-> engine_outputs rs.
Proof.
  unfold all_outputs, engine_outputs. rewrite elem_of_words.
  apply and_iff_compat_l. apply Forall_iff. intros v.
  rewrite elem_of_seqZ. unfold is_u64. reflexivity.
Qed.

Lemma Sorted_lt_NoDup (l : list Z) : Sorted Z.lt l -> NoDup l.
Proof.
  intros Hs. apply Sorted_StronglySorted in Hs; [| intros x y z; lia].
  induction Hs as [|x l Hs IH Hall]; constructor; [| exact IH].
  intros Hin. rewrite Forall_forall in Hall. specialize (Hall x Hin). lia.
Qed.

Lemma elem_of_pool_init v : v ∈ pool_init <-> in_range v.
Proof. unfold pool_init, in_range. rewrite elem_of_seqZ. lia. Qed.

(** ** Choices of main numbers *)

Lemma elem_of_combs (l : list Z) :
  forall (k : nat) (m : list Z), m ∈ combs l k <-> length m = k /\ m `sublist_of` l.
Proof.
  induction l as [|x l IH]; intros k m.
  - destruct k as [|k]; cbn [combs].
    + rewrite list_elem_of_singleton, sublist_nil_r. split; [by intros -> | tauto].
    + rewrite elem_of_nil, sublist_nil_r. split; [tauto |]. intros [Hl ->]. discriminate Hl.
  - destruct k as [|k]; cbn [combs].
    + rewrite list_elem_of_singleton. split.
      * intros ->. split; [reflexivity | apply sublist_nil_l].
      * intros [Hl _]. by destruct m.
    + rewrite elem_of_app, list_elem_of_fmap, sublist_cons_r. setoid_rewrite IH. split.
      * intros [(m' & -> & Hl & Hs) | [Hl Hs]].
        -- split; [simpl; lia | right; eauto].
        -- split; [exact Hl | by left].
      * intros [Hl [Hs | (m' & -> & Hs)]]; [by right | left].
        exists m'. split; [reflexivity |]. split; [simpl in Hl; lia | exact Hs].
Qed.

Lemma NoDup_combs (l : list Z) : NoDup l -> forall k, NoDup (combs l k).
Proof.
  induction l as [|x l IH]; intros Hnd k.
  - destruct k; cbn [combs]; [apply NoDup_singleton | constructor].
  - apply NoDup_cons in Hnd as [Hx Hnd].
    destruct k as [|k]; cbn [combs]; [apply NoDup_singleton |].
    apply NoDup_app. split; [| split].
    + apply NoDup_fmap_2; [| by apply IH]. intros m1 m2. congruence.
    + intros m Hm Hm'. apply list_elem_of_fmap in Hm as (m' & -> & _).
      apply elem_of_combs in Hm' as [_ Hs]. apply Hx.
      eapply elem_of_sublist; [| exact Hs]. left.
    + by apply IH.
Qed.

Lemma length_combs (l : list Z) :
  forall k, Z.of_nat (length (combs l k)) = binomial (length l) k.
Proof.
  induction l as [|x l IH]; intros [|k]; cbn [combs binomial length]; try reflexivity.
  rewrite length_app, length_fmap, Nat2Z.inj_add, !IH. reflexivity.
Qed.

Lemma binomial_0 (n : nat) : binomial n 0 = 1.
Proof. by destruct n. Qed.

Lemma binomial_succ (n : nat) :
  forall k, binomial (S n) (S k) * Z.of_nat (S k) = binomial n k * Z.of_nat (S n).
Proof.
  induction n as [|n IH]; intros k.
  - destruct k as [|k]; [reflexivity |]. cbn [binomial]. lia.
  - change (binomial (S (S n)) (S k)) with (binomial (S n) k + binomial (S n) (S k)).
    destruct k as [|k].
    + pose proof (IH 0%nat) as H0. rewrite !binomial_0 in *. lia.
    + pose proof (IH k) as H1. pose proof (IH (S k)) as H2.
      change (binomial (S n) (S k)) with (binomial n k + binomial n (S k)) in H1 |- *.
      nia.
Qed.

Lemma binomial_49_6 : binomial 49 6 = 13983816.
Proof.
  pose proof (binomial_succ 48 5) as H6. pose proof (binomial_succ 47 4) as H5.
  pose proof (binomial_succ 46 3) as H4. pose proof (binomial_succ 45 2) as H3.
  pose proof (binomial_succ 44 1) as H2. pose proof (binomial_succ 43 0) as H1.
  change (binomial 43 0) with 1 in H1. lia.
Qed.

Lemma sublist_StronglySorted (R : relation Z) (m l : list Z) :
  m `sublist_of` l -> StronglySorted R l -> StronglySorted R m.
Proof.
  induction 1 as [|x m l Hs IH|x m l Hs IH]; intros Hl.
  - constructor.
  - apply StronglySorted_inv in Hl as [Hl Hx]. constructor; [by apply IH |].
    rewrite Forall_forall in Hx |- *. intros v Hv. apply Hx.
    by eapply elem_of_sublist.
  - apply StronglySorted_inv in Hl as [Hl _]. by apply IH.
Qed.

(** An ascending list of entries of an ascending list is chosen from it. *)
Lemma ascending_sublist (l : list Z) :
  StronglySorted Z.lt l ->
  forall m, StronglySorted Z.lt m -> Forall (fun v => v ∈ l) m -> m `sublist_of` l.
Proof.
  induction 1 as [|x l Hl IH Hx]; intros m Hm Hin.
  - destruct m as [|y m]; [constructor |].
    apply Forall_cons in Hin as [Hy _]. by apply elem_of_nil in Hy.
  - destruct m as [|y m]; [apply sublist_nil_l |].
    apply StronglySorted_inv in Hm as [Hm Hy].
    rewrite Forall_forall in Hx, Hy.
    pose proof Hin as Hin'. apply Forall_cons in Hin' as [Hyl Hml].
    destruct (decide (y = x)) as [->|Hne].
    + apply sublist_skip, IH; [exact Hm |].
      rewrite Forall_forall in Hml |- *. intros v Hv.
      specialize (Hml v Hv). specialize (Hy v Hv).
      apply elem_of_cons in Hml as [-> | ?]; [lia | assumption].
    + apply sublist_cons, IH; [by constructor; [| apply Forall_forall] |].
      apply elem_of_cons in Hyl as [? | Hyl]; [contradiction |].
      specialize (Hx y Hyl).
      constructor; [exact Hyl |].
      rewrite Forall_forall in Hml |- *. intros v Hv.
      specialize (Hml v Hv). specialize (Hy v Hv).
      apply elem_of_cons in Hml as [-> | ?]; [lia | assumption].
Qed.

Lemma pool_init_ascending : StronglySorted Z.lt pool_init.
Proof.
  apply Sorted_StronglySorted; [intros x y z; lia |].
  apply (bool_decide_unpack _). vm_compute. reflexivity.
Qed.

Lemma elem_of_all_mains m :
  m ∈ all_mains <-> length m = 6%nat /\ Forall in_range m /\ Sorted Z.lt m.
Proof.
  unfold all_mains. rewrite elem_of_combs.
  rewrite <- (Forall_iff (fun a => a ∈ pool_init) m in_range) by apply elem_of_pool_init.
  split.
  - intros [Hl Hs]. split; [exact Hl |]. split.
    + apply Forall_forall. intros v Hv. by eapply elem_of_sublist.
    + apply StronglySorted_Sorted.
      eapply sublist_StronglySorted; [exact Hs | apply pool_init_ascending].
  - intros (Hl & Hr & Hs). split; [exact Hl |].
    apply ascending_sublist; [apply pool_init_ascending | | exact Hr].
    apply Sorted_StronglySorted; [intros x y z; lia | exact Hs].
Qed.

Lemma elem_of_all_tickets o : o ∈ all_tickets <-> valid_ticket o.
Proof.
  unfold all_tickets, valid_ticket, main_numbers. rewrite list_elem_of_bind. split.
  - intros (m & Ho & Hm). apply elem_of_all_mains in Hm as (Hl & Hr & Hs).
    apply list_elem_of_fmap in Ho as (b & -> & Hb).
    apply list_elem_of_filter in Hb as [Hbm Hb]. apply elem_of_pool_init in Hb.
    split; [rewrite length_app; simpl; lia |].
    split; [apply Forall_app; split; [exact Hr | by constructor] |].
    split.
    + apply NoDup_app. split; [by apply Sorted_lt_NoDup |].
      split; [| apply NoDup_singleton].
      intros v Hv Hvb. apply list_elem_of_singleton in Hvb. by subst.
    + by rewrite take_app_length'.
  - intros (Hl & Hr & Hnd & Hs).
    destruct (lookup_lt_is_Some_2 o 6) as [b Hb]; [lia |].
    assert (Ho : o = take 6 o ++ [b]).
    { rewrite <- (take_drop 6 o) at 1. f_equal.
      rewrite (drop_S o b 6 Hb), drop_ge by lia. reflexivity. }
    exists (take 6 o). split.
    + apply list_elem_of_fmap. exists b. split; [exact Ho |].
      apply list_elem_of_filter. split.
      * rewrite Ho in Hnd. apply NoDup_app in Hnd as (_ & Hd & _).
        intros Hin. apply (Hd b Hin). left.
      * apply elem_of_pool_init. rewrite Forall_forall in Hr.
        apply Hr. by eapply list_elem_of_lookup_2.
    + apply elem_of_all_mains. split; [rewrite length_take; lia |].
      split; [by apply Forall_take | exact Hs].
Qed.

Lemma NoDup_all_tickets : NoDup all_tickets.
Proof.
  unfold all_tickets. apply NoDup_bind.
  - intros m1 m2 o Hm1 Hm2 H1 H2.
    apply elem_of_all_mains in Hm1 as (L1 & _). apply elem_of_all_mains in Hm2 as (L2 & _).
    apply list_elem_of_fmap in H1 as (b1 & -> & _).
    apply list_elem_of_fmap in H2 as (b2 & E & _).
    apply app_inj_1 in E as [E _]; [exact E | congruence].
  - intros m _. apply NoDup_fmap_2.
    + intros b1 b2 E. apply app_inj_1 in E as [_ E]; [congruence | reflexivity].
    + apply NoDup_filter, pool_init_NoDup.
  - unfold all_mains. apply NoDup_combs, pool_init_NoDup.
Qed.

(** A choice of main numbers leaves 43 numbers for the bonus. *)
Lemma bonus_choices m :
  m ∈ all_mains -> length (filter (fun b => b ∉ m) pool_init) = 43%nat.
Proof.
  intros Hm. apply elem_of_all_mains in Hm as (Hl & Hr & Hs).
  pose proof (filter_app_complement (fun b => b ∈ m) pool_init) as Hc.
  apply Permutation_length in Hc. rewrite length_app, pool_init_length in Hc.
  assert (Hin : filter (fun b => b ∈ m) pool_init ≡ₚ m).
  { apply NoDup_Permutation.
    - apply NoDup_filter, pool_init_NoDup.
    - by apply Sorted_lt_NoDup.
    - intros v. rewrite list_elem_of_filter, elem_of_pool_init.
      rewrite Forall_forall in Hr. specialize (Hr v). tauto. }
  apply Permutation_length in Hin. lia.
Qed.

Lemma length_all_tickets : length all_tickets = (length all_mains * 43)%nat.
Proof.
  unfold all_tickets. apply length_bind_const.
  intros m Hm. rewrite length_fmap. by apply bonus_choices.
Qed.

(** There are C(49,6) x 43 = 601304088 tickets. *)
Lemma count_all_tickets : Z.of_nat (length all_tickets) = 13983816 * 43.
Proof.
  rewrite length_all_tickets, Nat2Z.inj_mul. unfold all_mains.
  rewrite length_combs, pool_init_length, binomial_49_6. reflexivity.
Qed.

(** The sequences that produce the tickets of a list, gathered ticket
    by ticket. *)
Lemma fibers_concat (c : nat) (os : list (list Z)) :
  NoDup os -> (forall o, o ∈ os -> produced_by o c) ->
  exists L : list (list Z),
    NoDup L /\ length L = (length os * c)%nat /\
    forall rs, rs ∈ L <-> engine_outputs rs /\ draw_with rs ∈ os.
Proof.
  induction os as [|o os IH]; intros Hnd Hc.
  - exists []. split; [constructor |]. split; [reflexivity |].
    intros rs. split; [intros H; by apply elem_of_nil in H |].
    intros [_ H]. by apply elem_of_nil in H.
  - apply NoDup_cons in Hnd as [Ho Hnd].
    destruct (Hc o) as (l & Hl1 & Hl2 & Hl3); [left |].
    destruct IH as (L & HL1 & HL2 & HL3); [exact Hnd | intros o' Ho'; apply Hc; by right |].
    exists (l ++ L). split; [| split].
    + apply NoDup_app. split; [exact Hl1 |]. split; [| exact HL1].
      intros rs Hin HinL. apply Hl3 in Hin as [_ E]. apply HL3 in HinL as [_ E'].
      rewrite E in E'. contradiction.
    + rewrite length_app, Hl2, HL2. simpl. lia.
    + intros rs. rewrite elem_of_app, Hl3, HL3, elem_of_cons. tauto.
Qed.

(** The number of sequences, [2^64] to the power 48, is not a multiple
    of 43, which divides the number of tickets. *)
Lemma outputs_not_shared (m c : nat) :
  (m * 43 * c)%nat <> (Z.to_nat two64 ^ 48)%nat.
Proof.
  intros H. apply (f_equal Z.of_nat) in H.
  rewrite !Nat2Z.inj_mul, Nat2Z.inj_pow in H.
  rewrite Z2Nat.id in H by discriminate.
  change (Z.of_nat 43) with 43 in H. change (Z.of_nat 48) with 48 in H.
  apply (f_equal (fun z => z mod 43)) in H.
  replace (Z.of_nat m * 43 * Z.of_nat c) with (Z.of_nat m * Z.of_nat c * 43) in H by ring.
  rewrite Z.mod_mul in H by discriminate.
  vm_compute in H. discriminate H.
Qed.

Lemma length_all_outputs : length all_outputs = (Z.to_nat two64 ^ 48)%nat.
Proof. unfold all_outputs. by rewrite length_words, length_seqZ. Qed.

Lemma no_common_count :
  ~ exists c : nat, forall o, valid_ticket o -> produced_by o c.
Proof.
  intros [c Hc].
  destruct (fibers_concat c all_tickets NoDup_all_tickets) as (L & HL1 & HL2 & HL3).
  { intros o Ho. apply Hc. by apply elem_of_all_tickets. }
  assert (Hperm : L ≡ₚ all_outputs).
  { apply NoDup_Permutation; [exact HL1 | apply NoDup_words, NoDup_seqZ |].
    intros rs. rewrite HL3, elem_of_all_outputs, elem_of_all_tickets.
    pose proof (draw_with_valid rs). tauto. }
  apply Permutation_length in Hperm.
  rewrite HL2, length_all_tickets, length_all_outputs in Hperm.
  exact (outputs_not_shared _ _ Hperm).
Qed.

(** * The bias of one step *)

(** The values that pick [j] at step [i] are [j], [j + (i+1)],
    [j + 2(i+1)], ... below [2^64]. *)
Lemma pick_count (i j : nat) :
  (j <= i <= 48)%nat ->
  picked_by i j ((two64 - 1 - Z.of_nat j) / (Z.of_nat i + 1) + 1).
Proof.
  intros Hj. set (m := Z.of_nat i + 1). set (a := two64 - 1 - Z.of_nat j).
  assert (Hm : 0 < m) by (unfold m; lia).
  assert (Ha : 0 <= a) by (unfold a, two64; lia).
  assert (Hq : 0 <= a / m) by (apply Z.div_pos; lia).
  pose proof (Z.mul_div_le a m Hm) as Hle.
  exists ((fun k => Z.of_nat j + k * m) <$> seqZ 0 (a / m + 1)).
  split; [| split].
  - apply NoDup_fmap_2; [| apply NoDup_seqZ]. intros k1 k2 E. nia.
  - rewrite length_fmap, length_seqZ. lia.
  - intros r. rewrite list_elem_of_fmap. unfold pick, is_u64. fold m. split.
    + intros (k & -> & Hk). apply elem_of_seqZ in Hk.
      split; [change (2 ^ 64) with two64; nia |].
      rewrite Z.mod_add, Z.mod_small by lia. apply Nat2Z.id.
    + intros [Hr Hp]. change (2 ^ 64) with two64 in Hr.
      pose proof (Z.mod_pos_bound r m Hm) as Hb.
      pose proof (Z.div_mod r m ltac:(lia)) as Hd.
      assert (Hmod : r mod m = Z.of_nat j) by lia.
      exists (r / m). split; [lia |].
      apply elem_of_seqZ.
      assert (0 <= r / m) by (apply Z.div_pos; lia).
      assert (r / m <= a / m); [| lia].
      apply Z.div_le_lower_bound; [exact Hm |]. unfold a. lia.
Qed.

Lemma outputs_range n st : Forall is_u64 (outputs n st).1.
Proof.
  revert st. induction n as [|n IH]; intros st; [constructor |].
  cbn [outputs]. unfold xorshift128plus at 1. cbn zeta.
  match goal with |- context [outputs n ?s] => specialize (IH s); destruct (outputs n s) end.
  constructor; [apply u64_range | exact IH].
Qed.

(** C5 (the code against its "zero bias"). A draw is the shuffle on the
    next 48 engine outputs; every sequence of outputs yields one of the
    C(49,6) x 43 = 601304088 tickets and every ticket is yielded by some
    sequence of 48 64-bit outputs. The tickets are not equally likely,
    though: step [i] picks the index [j] for
    [(2^64 - 1 - j) / (i + 1) + 1] of the [2^64] values ([j <= i <= 48]),
    a number that depends on [j], and no number [c] is the number of
    sequences of every ticket. *)
Theorem every_ticket_drawn (st : engine) (o : list Z) (i j : nat) :
  ((draw_one st).1 = draw_with (outputs 48 st).1 /\ engine_outputs (outputs 48 st).1) /\
  (NoDup all_tickets /\ Z.of_nat (length all_tickets) = 13983816 * 43 /\
   (o ∈ all_tickets <-> valid_ticket o)) /\
  (forall rs, valid_ticket (draw_with rs)) /\
  (valid_ticket o -> exists rs, engine_outputs rs /\ draw_with rs = o) /\
  ((j <= i <= 48)%nat -> picked_by i j ((two64 - 1 - Z.of_nat j) / (Z.of_nat i + 1) + 1)) /\
  ~ (exists c : nat, forall o', valid_ticket o' -> produced_by o' c).
Proof.
  split; [split; [apply draw_one_outputs | split; [apply length_outputs | apply outputs_range]] |].
  split; [split; [apply NoDup_all_tickets | split; [apply count_all_tickets | apply elem_of_all_tickets]] |].
  split; [apply draw_with_valid |].
  split; [apply draw_with_reaches |].
  split; [apply pick_count | apply no_common_count].
Qed.

Lemma every_ticket_drawn_low :
  (exists rs, engine_outputs rs /\ draw_with rs = [1; 2; 3; 4; 5; 6; 7]) /\
  picked_by 2 0 6148914691236517206 /\ picked_by 2 1 6148914691236517205 /\
  ~ (exists c : nat, forall o', valid_ticket o' -> produced_by o' c).
Proof.
  split; [| split; [| split]].
  - apply (every_ticket_drawn (seed_rng launch) [1; 2; 3; 4; 5; 6; 7] 0 0).
    split; [reflexivity |].
    split; [repeat constructor; unfold in_range; lia |].
    split; apply (bool_decide_unpack _); vm_compute; reflexivity.
  - apply (every_ticket_drawn (seed_rng launch) [] 2 0). lia.
  - apply (every_ticket_drawn (seed_rng launch) [] 2 1). lia.
  - apply (every_ticket_drawn (seed_rng launch) [] 0 0).
Defined.

(** * The engine over time *)

Lemma is_u64_high (a n : Z) : is_u64 a -> 64 <= n -> Z.testbit a n = false.
Proof.
  intros Ha Hn. rewrite <- (Z.mod_small a (2 ^ 64)) by exact Ha.
  apply Z.mod_pow2_bits_high. lia.
Qed.

Lemma shiftr_u64 (a n : Z) : is_u64 a -> 0 <= n -> is_u64 (Z.shiftr a n).
Proof.
  unfold is_u64. intros Ha Hn. rewrite Z.shiftr_div_pow2 by exact Hn.
  assert (0 < 2 ^ n) by (apply Z.pow_pos_nonneg; lia).
  split; [apply Z.div_pos; lia |].
  apply Z.le_lt_trans with a; [| lia].
  apply Z.div_le_upper_bound; nia.
Qed.

Lemma xorb_cancel_r (a b c : bool) : xorb a c = xorb b c -> a = b.
Proof. by destruct a, b, c. Qed.

(** [x ^= x << 23] loses nothing: bit [n] of the result is bit [n] of
    [x] xored with the bit 23 places below, already known. *)
Lemma xor_shiftl_inj (a b : Z) :
  is_u64 a -> is_u64 b ->
  Z.lxor a (u64 (Z.shiftl a 23)) = Z.lxor b (u64 (Z.shiftl b 23)) -> a = b.
Proof.
  intros Ha Hb H. apply Z.bits_inj'. intros n Hn. revert n Hn.
  apply (Zlt_0_ind (fun n => Z.testbit a n = Z.testbit b n)). intros n IH Hn.
  apply (f_equal (fun z => Z.testbit z n)) in H.
  rewrite !Z.lxor_spec, !u64_eq in H.
  destruct (Z.lt_ge_cases n 64) as [Hlt | Hge].
  - rewrite !Z.mod_pow2_bits_low, !Z.shiftl_spec in H by lia.
    destruct (Z.lt_ge_cases (n - 23) 0) as [Hneg | Hpos].
    + rewrite (Z.testbit_neg_r a (n - 23)), (Z.testbit_neg_r b (n - 23)) in H by lia.
      by apply xorb_cancel_r in H.
    + rewrite (IH (n - 23)) in H by lia. by apply xorb_cancel_r in H.
  - rewrite !Z.mod_pow2_bits_high in H by lia. by apply xorb_cancel_r in H.
Qed.

(** [x ^ (x >> 17)] loses nothing either: bit [n] of the result is bit
    [n] of [x] xored with the bit 17 places above. *)
Lemma xor_shiftr_inj (a b : Z) :
  is_u64 a -> is_u64 b ->
  Z.lxor a (Z.shiftr a 17) = Z.lxor b (Z.shiftr b 17) -> a = b.
Proof.
  intros Ha Hb H. apply Z.bits_inj'.
  assert (Hk : forall k : nat, forall n, 0 <= n -> 64 - Z.of_nat k <= n ->
                 Z.testbit a n = Z.testbit b n).
  { induction k as [|k IH]; intros n Hn Hlow.
    - rewrite !is_u64_high by (assumption || lia). reflexivity.
    - apply (f_equal (fun z => Z.testbit z n)) in H.
      rewrite !Z.lxor_spec, !Z.shiftr_spec in H by lia.
      rewrite (IH (n + 17)) in H by lia. by apply xorb_cancel_r in H. }
  intros n Hn. apply (Hk 64%nat); lia.
Qed.

Lemma xorshift128plus_range (st : engine) :
  engine_ok st ->
  is_u64 (xorshift128plus st).1 /\ engine_ok (xorshift128plus st).2.
Proof.
  intros [H0 H1]. unfold xorshift128plus. cbn [fst snd].
  split; [apply u64_range |]. split; cbn [s0 s1]; [exact H1 |].
  assert (Hx : is_u64 (Z.lxor (s0 st) (u64 (Z.shiftl (s0 st) 23))))
    by (apply lxor_u64; [exact H0 | apply u64_range]).
  apply lxor_u64; [apply lxor_u64; [by apply lxor_u64 |] |];
    apply shiftr_u64; (assumption || lia).
Qed.

Lemma xorshift128plus_inj (st1 st2 : engine) :
  engine_ok st1 -> engine_ok st2 ->
  (xorshift128plus st1).2 = (xorshift128plus st2).2 -> st1 = st2.
Proof.
  destruct st1 as [x1 y1], st2 as [x2 y2]. intros [Hx1 Hy1] [Hx2 Hy2].
  unfold xorshift128plus. cbn [fst snd s0 s1] in *. intros [= -> H].
  apply lxor_cancel_r in H.
  set (X1 := Z.lxor x1 (u64 (Z.shiftl x1 23))) in *.
  set (X2 := Z.lxor x2 (u64 (Z.shiftl x2 23))) in *.
  rewrite (Z.lxor_comm X1 y2), (Z.lxor_comm X2 y2), !Z.lxor_assoc in H.
  apply lxor_cancel_l in H.
  apply xor_shiftr_inj in H;
    try (apply lxor_u64; [assumption | apply u64_range]).
  apply xor_shiftl_inj in H; [| assumption | assumption]. by subst.
Qed.

Lemma gather_entropy_range (e : environment) : is_u64 (gather_entropy e).
Proof.
  unfold gather_entropy. destruct (crypto e); [apply u64_range |].
  destruct (perf_counter e); repeat apply lxor_u64; apply u64_range.
Qed.

Lemma seed_rng_ok (e : environment) : engine_ok (seed_rng e).
Proof.
  pose proof (gather_entropy_range e) as H. split; cbn [seed_rng seed_state s0 s1]; [exact H |].
  apply (lxor_u64 _ _ H). unfold is_u64, golden. lia.
Qed.

Lemma advance_succ (n : nat) (st : engine) :
  advance (S n) st = advance n (xorshift128plus st).2.
Proof.
  unfold advance. cbn [outputs]. destruct (xorshift128plus st) as [r st1].
  cbn [snd]. by destruct (outputs n st1).
Qed.

Lemma advance_ok (n : nat) (st : engine) : engine_ok st -> engine_ok (advance n st).
Proof.
  revert st. induction n as [|n IH]; intros st Hst; [exact Hst |].
  rewrite advance_succ. apply IH. by apply xorshift128plus_range.
Qed.

Lemma advance_nonzero (n : nat) (st : engine) :
  engine_ok st -> st <> Engine 0 0 -> advance n st <> Engine 0 0.
Proof.
  revert st. induction n as [|n IH]; intros st Hst Hnz; [exact Hnz |].
  rewrite advance_succ. apply IH; [by apply xorshift128plus_range |].
  intros Hz. apply Hnz.
  apply xorshift128plus_inj; [exact Hst | split; unfold is_u64; simpl; lia |].
  rewrite Hz. reflexivity.
Qed.

Lemma seed_rng_words_differ (e : environment) : s0 (seed_rng e) <> s1 (seed_rng e).
Proof.
  cbn [seed_rng seed_state s0 s1]. intros H. symmetry in H.
  exact (lxor_golden_neq _ H).
Qed.

Lemma seed_rng_nonzero (e : environment) : seed_rng e <> Engine 0 0.
Proof. intros Hz. apply (seed_rng_words_differ e). by rewrite Hz. Qed.

(** X1. On 64-bit states the step of the engine is one to one: two
    different states never lead to the same next state. *)
Theorem xorshift128plus_injective (st1 st2 : engine) :
  engine_ok st1 -> engine_ok st2 ->
  (xorshift128plus st1).2 = (xorshift128plus st2).2 -> st1 = st2.
Proof. apply xorshift128plus_inj. Qed.

Lemma xorshift128plus_injective_seeded :
  seed_state 7 = Engine 7 0x9e3779b97f4a7c12.
Proof.
  apply (xorshift128plus_injective (seed_state 7) (Engine 7 0x9e3779b97f4a7c12)).
  - split; (split; vm_compute; [discriminate | reflexivity]).
  - split; (split; vm_compute; [discriminate | reflexivity]).
  - vm_compute. reflexivity.
Defined.

(** X2. The all-zero state leads to itself with the output 0, and a
    seeded engine never reaches it: whatever the environment, after any
    number of calls the state still holds two 64-bit words that are
    not both zero. *)
Theorem engine_never_zero (e : environment) (n : nat) :
  xorshift128plus (Engine 0 0) = (0, Engine 0 0) /\
  engine_ok (advance n (seed_rng e)) /\
  advance n (seed_rng e) <> Engine 0 0.
Proof.
  split; [reflexivity |].
  split; [apply advance_ok, seed_rng_ok |].
  apply advance_nonzero; [apply seed_rng_ok | apply seed_rng_nonzero].
Qed.

(** * What a lookup finds *)

Lemma probe_true_stored fuel tbl mask h i :
  probe fuel tbl mask h i = Ret true -> h <> 0 /\ h ∈ tbl.
Proof.
  revert i. induction fuel as [|fuel IH]; intros i; [discriminate |].
  cbn [probe]. destruct (tbl !! Z.to_nat i) as [v|] eqn:Hv; [| discriminate].
  destruct (decide (v = 0)); [discriminate |].
  destruct (decide (v = h)) as [<-|]; [| apply IH].
  intros _. split; [assumption | by eapply list_elem_of_lookup_2].
Qed.

(** The probe from slot [i] of the table of a run walks through the
    stored fingerprints from the [i]-th on and stops at the first zero. *)
Lemma probe_walk (hs : list Z) (zeros : nat) (cap e h : Z) :
  0 <= e -> cap = 2 ^ e -> Z.of_nat (length hs) < cap ->
  Forall (fun v => v <> 0) hs -> (0 < zeros)%nat ->
  forall (d i : nat) (fuel : nat),
    (i + d = length hs)%nat -> (d < fuel)%nat ->
    probe fuel (hs ++ replicate zeros 0) (cap - 1) h (Z.of_nat i) =
    Ret (bool_decide (h ∈ drop i hs)).
Proof.
  intros He Hcap Hlen Hnz Hz. induction d as [|d IH]; intros i fuel Hi Hf.
  - destruct fuel as [|fuel]; [lia |]. cbn [probe]. rewrite Nat2Z.id.
    rewrite lookup_app_r by lia. replace (i - length hs)%nat with 0%nat by lia.
    destruct zeros as [|zeros]; [lia |]. cbn [replicate lookup list_lookup].
    rewrite decide_True by reflexivity. rewrite drop_ge by lia.
    by rewrite bool_decide_eq_false_2 by apply not_elem_of_nil.
  - destruct fuel as [|fuel]; [lia |]. cbn [probe]. rewrite Nat2Z.id.
    destruct (lookup_lt_is_Some_2 hs i) as [v Hv]; [lia |].
    rewrite lookup_app_l, Hv by lia.
    pose proof (Forall_lookup_1 _ _ _ _ Hnz Hv) as Hv0. cbn beta in Hv0.
    rewrite decide_False by exact Hv0.
    rewrite (drop_S hs v i Hv).
    destruct (decide (v = h)) as [->|Hne].
    + by rewrite bool_decide_eq_true_2 by left.
    + rewrite (land_mask cap e) by assumption.
      rewrite Z.mod_small by lia.
      replace (Z.of_nat i + 1) with (Z.of_nat (S i)) by lia.
      rewrite IH by lia. f_equal. apply bool_decide_ext.
      rewrite elem_of_cons. split; [tauto |]. intros [-> | ?]; [contradiction | assumption].
Qed.

Lemma already_seen_walk (hs : list Z) (g : guard) (h : Z) (fuel : nat) :
  guard_holds hs g -> Z.of_nat (length hs) < capacity g ->
  Forall (fun v => v <> 0) hs -> (Z.to_nat (capacity g) <= fuel)%nat ->
  already_seen fuel g h = Ret (bool_decide (h ∈ drop (Z.to_nat (home g h)) hs)).
Proof.
  intros Hg Hlen Hnz Hfuel. unfold already_seen, home.
  pose proof (guard_holds_well_formed _ _ Hg) as Hw.
  unfold guard_holds in Hg. unfold well_formed in Hw.
  destruct (seen g) as [tbl|].
  - destruct Hg as (_ & _ & ->). destruct Hw as [(e & He & Hcap) _].
    assert (Hpos : 0 < capacity g) by lia.
    cbn zeta. rewrite (land_mask _ e) by assumption.
    set (i := h mod capacity g).
    assert (Hi : 0 <= i < capacity g) by (apply Z.mod_pos_bound; lia).
    destruct (decide (i <= Z.of_nat (length hs))) as [Hin | Hout].
    + rewrite <- (Z2Nat.id i) at 1 by lia.
      apply (probe_walk hs _ _ e h He Hcap Hlen Hnz) with (d := (length hs - Z.to_nat i)%nat); lia.
    + (* the home slot lies above the stored fingerprints *)
      destruct fuel as [|fuel]; [lia |]. cbn [probe].
      rewrite lookup_app_r by lia.
      rewrite lookup_replicate_2 by lia.
      rewrite decide_True by reflexivity. rewrite drop_ge by lia.
      by rewrite bool_decide_eq_false_2 by apply not_elem_of_nil.
  - destruct Hg as [-> _]. rewrite drop_nil.
    by rewrite bool_decide_eq_false_2 by apply not_elem_of_nil.
Qed.

(** X3. A lookup has no false positives: when [already_seen(h)]
    answers 1, [h] is not 0 and is stored in the table; in a run, it is
    the fingerprint of a ticket printed before. *)
Theorem already_seen_sound (fuel : nat) (g : guard) (h : Z) (hs : list Z) :
  already_seen fuel g h = Ret true ->
  h <> 0 /\ (exists tbl, seen g = Some tbl /\ h ∈ tbl) /\
  (guard_holds hs g -> h ∈ hs).
Proof.
  unfold already_seen. destruct (seen g) as [tbl|] eqn:E; [| discriminate].
  intros H. apply probe_true_stored in H as [Hnz Hin].
  split; [exact Hnz |]. split; [by exists tbl |].
  unfold guard_holds. rewrite E. intros (_ & _ & ->).
  apply elem_of_app in Hin as [? | Hin]; [assumption |].
  apply elem_of_replicate in Hin as [? _]. congruence.
Qed.

Lemma already_seen_sound_home :
  already_seen 1 home_entry 1024 = Ret true /\ 1024 ∈ [1024].
Proof.
  split; [reflexivity |].
  apply (already_seen_sound 1 home_entry 1024 [1024]); [reflexivity |].
  split; [exists 0%nat; reflexivity |]. split; [simpl; lia | reflexivity].
Defined.

(** X4. In a run whose stored fingerprints are not 0 and leave room in
    the table, [already_seen(h)] answers whether [h] is stored at or
    after its home slot [h & (capacity - 1)]: a fingerprint stored
    below its home slot, or whose home slot lies above the stored ones,
    is reported as not seen. *)
Theorem already_seen_from_home (hs : list Z) (g : guard) (h : Z) (fuel : nat) :
  guard_holds hs g -> Z.of_nat (length hs) < capacity g ->
  Forall (fun v => v <> 0) hs -> (Z.to_nat (capacity g) <= fuel)%nat ->
  already_seen fuel g h = Ret (bool_decide (h ∈ drop (Z.to_nat (home g h)) hs)) /\
  (Z.of_nat (length hs) <= home g h -> already_seen fuel g h = Ret false).
Proof.
  intros Hg Hlen Hnz Hfuel.
  pose proof (already_seen_walk hs g h fuel Hg Hlen Hnz Hfuel) as H.
  split; [exact H |]. intros Hhome. rewrite H, drop_ge by lia.
  by rewrite bool_decide_eq_false_2 by apply not_elem_of_nil.
Qed.

Lemma already_seen_from_home_entry :
  already_seen 1024 home_entry 1024 = Ret true /\
  already_seen 1024 home_entry 2049 = Ret false.
Proof.
  assert (Hg : guard_holds [1024] home_entry).
  { split; [exists 0%nat; reflexivity |]. split; [simpl; lia | reflexivity]. }
  assert (Hnz : Forall (fun v => v <> 0) [1024]) by (repeat constructor; discriminate).
  split.
  - apply (already_seen_from_home [1024] home_entry 1024 1024 Hg); [simpl; lia | exact Hnz | vm_compute; lia].
  - apply (already_seen_from_home [1024] home_entry 2049 1024 Hg); [simpl; lia | exact Hnz | vm_compute; lia | vm_compute; discriminate].
Defined.

(** * Storing fingerprints one after the other *)

Lemma length_grow (cap : Z) (tbl : list Z) :
  0 <= cap -> length (grow (cap * 2) tbl) = Z.to_nat (cap * 2).
Proof.
  intros Hc. unfold grow. rewrite Z.div_mul by lia.
  rewrite length_app, length_resize, length_replicate. lia.
Qed.

(** The indices that [remember] can store at: those below twice the
    capacity (twice 1024 for the first call). *)
Lemma remember_is_Some (hs : list Z) (g : guard) (h index : Z) :
  guard_holds hs g ->
  is_Some (remember h index g) <-> 0 <= index < 2 * Z.max 1024 (capacity g).
Proof.
  unfold guard_holds, remember. destruct (seen g) as [tbl|] eqn:Eg.
  - intros ([m Hm] & Hle & ->). pose proof (capacity_pos m) as Hpos. rewrite <- Hm in Hpos.
    assert (Hlen : length (hs ++ replicate (Z.to_nat (capacity g) - length hs) 0)
                   = Z.to_nat (capacity g))
      by (rewrite length_app, length_replicate; lia).
    rewrite Z.max_r by lia.
    destruct (decide (capacity g <= index)) as [Hge | Hlt].
    + rewrite Eg. cbn [fmap option_fmap option_map seen capacity].
      rewrite length_grow by lia.
      destruct (decide _) as [Hin | Hout];
        [split; [lia | intros _; eexists; reflexivity]
        | split; [intros [? H]; discriminate H | lia]].
    + rewrite Eg. rewrite Hlen.
      destruct (decide _) as [Hin | Hout];
        [split; [lia | intros _; eexists; reflexivity]
        | split; [intros [? H]; discriminate H | lia]].
  - intros [-> Hc]. rewrite Hc. cbn [seen capacity]. rewrite Z.max_l by lia.
    destruct (decide (1024 <= index)) as [Hge | Hlt].
    + cbn [fmap option_fmap option_map seen capacity].
      rewrite (length_grow 1024) by lia.
      destruct (decide _) as [Hin | Hout];
        [split; [lia | intros _; eexists; reflexivity]
        | split; [intros [? H]; discriminate H | lia]].
    + cbn [seen capacity]. rewrite length_replicate.
      destruct (decide _) as [Hin | Hout];
        [split; [lia | intros _; eexists; reflexivity]
        | split; [intros [? H]; discriminate H | lia]].
Qed.

Lemma remember_capacity_next (hs : list Z) (g g' : guard) (h : Z) :
  guard_holds hs g -> remember h (Z.of_nat (length hs)) g = Some g' ->
  capacity g' =
    match seen g with
    | None => 1024
    | Some _ => if decide (capacity g <= Z.of_nat (length hs))
                then capacity g * 2 else capacity g
    end.
Proof.
  unfold guard_holds, remember. destruct (seen g) as [tbl|] eqn:Eg.
  - intros _. destruct (decide (capacity g <= Z.of_nat (length hs))).
    + rewrite Eg. cbn [fmap option_fmap option_map seen capacity].
      destruct (decide _); [| discriminate]. by intros [= <-].
    + rewrite Eg. destruct (decide _); [| discriminate]. by intros [= <-].
  - intros [-> _]. cbn [seen capacity length].
    rewrite decide_False by lia. cbn [seen capacity].
    destruct (decide _); [| discriminate]. by intros [= <-].
Qed.

Lemma remember_all_next (hs2 : list Z) :
  forall (hs1 : list Z) (g : guard),
    guard_holds hs1 g -> capacity_tight hs1 g ->
    exists g', remember_all hs2 (Z.of_nat (length hs1)) g = Some g' /\
               guard_holds (hs1 ++ hs2) g' /\ capacity_tight (hs1 ++ hs2) g' /\
               (hs2 <> [] -> seen g' <> None).
Proof.
  induction hs2 as [|h hs2 IH]; intros hs1 g Hg Ht.
  - exists g. rewrite app_nil_r. by repeat split.
  - destruct (remember_next hs1 g h Hg) as (g1 & Hr & Hg1).
    pose proof (remember_capacity_next hs1 g g1 h Hg Hr) as Hc.
    assert (Ht1 : capacity_tight (hs1 ++ [h]) g1).
    { unfold capacity_tight. rewrite length_app. cbn [length]. right.
      destruct (seen g) as [tbl|] eqn:Eg; [| by left].
      destruct (decide (capacity g <= Z.of_nat (length hs1))).
      - right. lia.
      - destruct Ht as [? | [? | ?]]; [congruence | left; lia | right; lia]. }
    destruct (IH (hs1 ++ [h]) g1 Hg1 Ht1) as (g' & Hr' & Hg' & Ht' & Hs').
    exists g'. cbn [remember_all]. rewrite Hr.
    rewrite length_app in Hr'. cbn [length] in Hr'.
    replace (Z.of_nat (length hs1) + 1) with (Z.of_nat (length hs1 + 1)) by lia.
    rewrite <- app_assoc in Hg', Ht'. cbn [app] in Hg', Ht'.
    split; [exact Hr' |]. split; [exact Hg' |]. split; [exact Ht' |].
    intros _ Hnone. unfold guard_holds in Hg'. rewrite Hnone in Hg'.
    destruct Hg' as [Hnil _]. by destruct hs1.
Qed.

Lemma capacity_1024 (m : nat) : 1024 * 2 ^ Z.of_nat m < 2048 -> 1024 * 2 ^ Z.of_nat m = 1024.
Proof.
  destruct m as [|m]; [reflexivity |].
  rewrite Nat2Z.inj_succ, Z.pow_succ_r by lia.
  assert (0 < 2 ^ Z.of_nat m) by (apply Z.pow_pos_nonneg; lia). lia.
Qed.

(** X6. Stored at the indices 0, 1, 2, ... as the run does, any number
    of fingerprints fits: no store falls outside the table, the table
    holds them in order followed by zeros, and its capacity is 1024 for
    up to 1024 fingerprints and less than twice their number beyond. *)
Theorem remember_all_fits (hs : list Z) :
  exists g,
    remember_all hs 0 guard_init = Some g /\ guard_holds hs g /\
    (hs <> [] ->
     exists tbl, seen g = Some tbl /\
       tbl = hs ++ replicate (Z.to_nat (capacity g) - length hs) 0 /\
       Z.of_nat (length hs) <= capacity g /\
       (Z.of_nat (length hs) <= 1024 -> capacity g = 1024) /\
       (1024 < Z.of_nat (length hs) -> capacity g < 2 * Z.of_nat (length hs))).
Proof.
  destruct (remember_all_next hs [] guard_init) as (g & Hr & Hg & Ht & Hs).
  - by split.
  - by left.
  - exists g. split; [exact Hr |]. split; [exact Hg |]. intros Hne.
    specialize (Hs Hne). cbn [app] in Hg, Ht.
    unfold guard_holds in Hg. unfold capacity_tight in Ht.
    destruct (seen g) as [tbl|]; [| contradiction].
    destruct Hg as ([m Hm] & Hle & Htbl). pose proof (capacity_pos m) as Hpos.
    exists tbl. split; [reflexivity |]. split; [exact Htbl |]. split; [exact Hle |].
    destruct Ht as [? | [Ht | Ht]]; [discriminate | lia |].
    split; [| lia]. intros Hsmall. rewrite Hm. apply capacity_1024. lia.
Qed.

(** X7. [remember] doubles the table once per call: on the table of a
    run it stores at exactly the indices from 0 to below twice the
    capacity (below 2048 on the first call); any other index is a store
    outside the table. *)
Theorem remember_index_bounds (hs : list Z) (g : guard) (h index : Z) :
  guard_holds hs g ->
  (is_Some (remember h index g) <-> 0 <= index < 2 * Z.max 1024 (capacity g)) /\
  (2 * Z.max 1024 (capacity g) <= index -> remember h index g = None).
Proof.
  intros Hg. pose proof (remember_is_Some hs g h index Hg) as H.
  split; [exact H |]. intros Hbig.
  destruct (remember h index g) eqn:E; [| reflexivity].
  assert (Hs : is_Some (Some g0)) by (by eexists). apply H in Hs. lia.
Qed.

Lemma remember_index_bounds_fresh :
  is_Some (remember 7 2047 guard_init) /\ remember 7 2048 guard_init = None.
Proof.
  assert (Hg : guard_holds [] guard_init) by (by split).
  split.
  - apply (remember_index_bounds [] guard_init 7 2047 Hg). vm_compute. split; [discriminate | reflexivity].
  - apply (remember_index_bounds [] guard_init 7 2048 Hg). vm_compute. discriminate.
Defined.

(** * Counts that are honoured *)

Lemma digit_digit_char (d : nat) : (d < 10)%nat -> digit (digit_char d) = Some (Z.of_nat d).
Proof. intros H. do 10 (destruct d as [|d]; [reflexivity |]). lia. Qed.

Lemma isspace_digit_char (d : nat) : (d < 10)%nat -> isspace (digit_char d) = false.
Proof. intros H. do 10 (destruct d as [|d]; [reflexivity |]). lia. Qed.

Lemma split_sign_digit_char (d : nat) (s : string) :
  (d < 10)%nat -> split_sign (String (digit_char d) s) = (false, String (digit_char d) s).
Proof. intros H. do 10 (destruct d as [|d]; [reflexivity |]). lia. Qed.

Lemma digits_numeral (ds : list nat) :
  Forall (fun d => (d < 10)%nat) ds ->
  forall acc, digits acc (numeral ds) =
              (fold_left (fun acc d => 10 * acc + Z.of_nat d) ds acc, EmptyString).
Proof.
  induction 1 as [|d ds Hd Hds IH]; intros acc; [reflexivity |].
  cbn [numeral digits fold_left]. by rewrite digit_digit_char, IH.
Qed.

Lemma fold_digits_nonneg (ds : list nat) (acc : Z) :
  0 <= acc -> 0 <= fold_left (fun acc d => 10 * acc + Z.of_nat d) ds acc.
Proof.
  revert acc. induction ds as [|d ds IH]; intros acc Ha; [exact Ha |].
  cbn [fold_left]. apply IH. lia.
Qed.

Lemma strtol_numeral (ds : list nat) :
  Forall (fun d => (d < 10)%nat) ds -> ds <> [] ->
  strtol (numeral ds) = (Z.min (numeral_value ds) LONG_MAX, EmptyString).
Proof.
  intros Hds Hne. destruct ds as [|d ds]; [contradiction |].
  pose proof (Forall_inv Hds) as Hd.
  unfold strtol. cbn [numeral skip_spaces].
  rewrite isspace_digit_char, split_sign_digit_char, digit_digit_char by exact Hd.
  change (String (digit_char d) (numeral ds)) with (numeral (d :: ds)).
  rewrite digits_numeral by exact Hds. fold (numeral_value (d :: ds)).
  pose proof (fold_digits_nonneg (d :: ds) 0 ltac:(lia)) as Hv.
  fold (numeral_value (d :: ds)) in Hv.
  f_equal. unfold clamp_long, LONG_MIN, LONG_MAX. lia.
Qed.

Lemma strtol_value_bound (arg : string) : (strtol arg).1 <= LONG_MAX.
Proof.
  rewrite strtol_spec. destruct (starts_numeric arg); cbn [fst].
  - unfold clamp_long, LONG_MIN, LONG_MAX. lia.
  - unfold LONG_MAX. lia.
Qed.

Lemma parse_count_range (argv : list string) : 1 <= parse_count argv <= LONG_MAX.
Proof.
  unfold parse_count.
  destruct argv as [|prog [|arg rest]]; try (unfold LONG_MAX; lia).
  pose proof (strtol_value_bound arg) as Hb.
  destruct (strtol arg) as [n r]. cbn [fst] in Hb.
  destruct r; [| unfold LONG_MAX; lia].
  destruct (decide (1 <= n)); [lia | unfold LONG_MAX; lia].
Qed.

(** X8. The count that the portable variant settles on lies between 1
    and [LONG_MAX] whatever the arguments. An argument written as a
    decimal numeral is read as its value, cut down to [LONG_MAX] when
    larger, and the value 0 falls back to 5; the simple variant prints
    as many tickets as a numeral between 1 and [2^31 - 1] says. *)
Theorem decimal_count_honoured {R : Type} (srand : Z -> R) (rand : R -> Z * R)
    (prog : string) (rest argv : list string) (ds : list nat) (now : Z) :
  1 <= parse_count argv <= LONG_MAX /\
  (Forall (fun d => (d < 10)%nat) ds -> ds <> [] ->
   parse_count (prog :: numeral ds :: rest) =
     (if decide (1 <= numeral_value ds) then Z.min (numeral_value ds) LONG_MAX else 5) /\
   (1 <= numeral_value ds < 2 ^ 31 ->
    let r := main_simple srand rand (prog :: numeral ds :: rest) now in
    exit_status r = 0 /\ Z.of_nat (length (stdout r)) = numeral_value ds)).
Proof.
  split; [apply parse_count_range |]. intros Hds Hne.
  pose proof (strtol_numeral ds Hds Hne) as Hs. split.
  - unfold parse_count. rewrite Hs.
    destruct (decide (1 <= numeral_value ds)).
    + rewrite decide_True; [reflexivity | unfold LONG_MAX; lia].
    + rewrite decide_False; [reflexivity | unfold LONG_MAX; lia].
  - intros Hv r. subst r. cbn [main_simple]. unfold atoi. rewrite Hs. cbn [fst].
    assert (Hi : to_int (Z.min (numeral_value ds) LONG_MAX) = numeral_value ds).
    { unfold LONG_MAX, to_int. rewrite Z.min_l by lia. rewrite Z.mod_small by lia. lia. }
    rewrite Hi, decide_False by lia. cbn [exit_status stdout].
    split; [reflexivity |]. rewrite length_generate. lia.
Qed.

Lemma decimal_count_honoured_samples :
  parse_count ["lotto649"; "20"]%string = 20 /\
  parse_count ["lotto649"; "99999999999999999999"]%string = LONG_MAX /\
  length (stdout (main_simple sample_srand sample_rand ["lotto649"; "12"]%string 0)) = 12%nat.
Proof.
  assert (H10 : forall ds, Forall (fun d => (d < 10)%nat) ds <-> forallb (fun d => Nat.ltb d 10) ds = true).
  { intros ds. rewrite forallb_forall, Forall_forall. split; intros H d Hd.
    - apply Nat.ltb_lt, H. by apply list_elem_of_In.
    - apply Nat.ltb_lt, H. by apply list_elem_of_In. }
  split; [| split].
  - destruct (decimal_count_honoured sample_srand sample_rand "lotto649" [] [] [2; 0]%nat 0)
      as [_ H]. destruct H as [H _]; [by apply H10 | discriminate |]. exact H.
  - destruct (decimal_count_honoured sample_srand sample_rand "lotto649" [] []
                (replicate 20 9%nat) 0) as [_ H].
    destruct H as [H _]; [by apply H10 | discriminate |]. exact H.
  - destruct (decimal_count_honoured sample_srand sample_rand "lotto649" [] [] [1; 2]%nat 0)
      as [_ H]. destruct H as [_ H]; [by apply H10 | discriminate |].
    destruct H as [_ H]; [vm_compute; split; [discriminate | reflexivity] |].
    apply Nat2Z.inj. exact H.
Defined.

(** * Numerals followed by other characters *)

Lemma numeral_app_cons (d : nat) (ds : list nat) (rest : string) :
  numeral (d :: ds) +:+ rest = String (digit_char d) (numeral ds +:+ rest).
Proof. reflexivity. Qed.

Lemma digits_numeral_tail (ds : list nat) (c : ascii) (tail : string) :
  Forall (fun d => (d < 10)%nat) ds -> digit c = None ->
  forall acc, digits acc (numeral ds +:+ String c tail) =
              (fold_left (fun acc d => 10 * acc + Z.of_nat d) ds acc, String c tail).
Proof.
  intros Hds Hc. induction Hds as [|d ds Hd Hds IH]; intros acc.
  - change (digits acc (String c tail) = (acc, String c tail)).
    cbn [digits]. by rewrite Hc.
  - rewrite numeral_app_cons. cbn [digits fold_left].
    by rewrite digit_digit_char, IH.
Qed.

Lemma strtol_numeral_tail (ds : list nat) (c : ascii) (tail : string) :
  Forall (fun d => (d < 10)%nat) ds -> ds <> [] -> digit c = None ->
  strtol (numeral ds +:+ String c tail) =
    (Z.min (numeral_value ds) LONG_MAX, String c tail) /\
  numeric (numeral ds +:+ String c tail) = false.
Proof.
  intros Hds Hne Hc. destruct ds as [|d ds]; [contradiction |].
  pose proof (Forall_inv Hds) as Hd.
  pose proof (digits_numeral_tail (d :: ds) c tail Hds Hc 0) as Hdig.
  pose proof (fold_digits_nonneg (d :: ds) 0 ltac:(lia)) as Hv.
  fold (numeral_value (d :: ds)) in Hv, Hdig.
  rewrite numeral_app_cons in *. split.
  - unfold strtol. cbn [skip_spaces].
    rewrite isspace_digit_char, split_sign_digit_char, digit_digit_char by exact Hd.
    rewrite Hdig. f_equal. unfold clamp_long, LONG_MIN, LONG_MAX. lia.
  - unfold numeric, starts_numeric. cbn [skip_spaces].
    rewrite isspace_digit_char, split_sign_digit_char by exact Hd. cbn [snd].
    rewrite Hdig. cbn [snd]. apply andb_false_r.
Qed.

(** C6 (the simple variant at a number followed by other characters).
    An argument that begins with a decimal numeral between 1 and
    [2^31 - 1] and goes on with a character that is no digit is not a
    number. The portable variant falls back to 5 for it; the simple
    variant neither falls back nor fails: it exits with status 0 and no
    message after printing as many tickets as the numeral says. *)
Theorem trailing_characters_taken {R : Type} (srand : Z -> R) (rand : R -> Z * R)
    (prog : string) (rest : list string) (ds : list nat) (c : ascii) (tail : string)
    (now : Z) :
  Forall (fun d => (d < 10)%nat) ds -> ds <> [] -> digit c = None ->
  1 <= numeral_value ds < 2 ^ 31 ->
  let arg := numeral ds +:+ String c tail in
  numeric arg = false /\
  parse_count (prog :: arg :: rest) = 5 /\
  let r := main_simple srand rand (prog :: arg :: rest) now in
  exit_status r = 0 /\ stderr r = EmptyString /\
  Z.of_nat (length (stdout r)) = numeral_value ds.
Proof.
  intros Hds Hne Hc Hv arg. subst arg.
  destruct (strtol_numeral_tail ds c tail Hds Hne Hc) as [Hs Hn].
  split; [exact Hn |]. split.
  - unfold parse_count. by rewrite Hs.
  - cbn [main_simple]. unfold atoi. rewrite Hs. cbn [fst].
    assert (Hi : to_int (Z.min (numeral_value ds) LONG_MAX) = numeral_value ds).
    { unfold LONG_MAX, to_int. rewrite Z.min_l by lia. rewrite Z.mod_small by lia. lia. }
    rewrite Hi, decide_False by lia. cbn [exit_status stderr stdout].
    split; [reflexivity |]. split; [reflexivity |]. rewrite length_generate. lia.
Qed.

Lemma trailing_characters_taken_12abc :
  numeric "12abc" = false /\
  parse_count ["lotto649"; "12abc"]%string = 5 /\
  let r := main_simple sample_srand sample_rand ["lotto649"; "12abc"]%string 0 in
  exit_status r = 0 /\ stderr r = EmptyString /\ Z.of_nat (length (stdout r)) = 12.
Proof.
  apply (trailing_characters_taken sample_srand sample_rand "lotto649" []
           [1; 2]%nat "a" "bc" 0).
  - repeat constructor.
  - discriminate.
  - reflexivity.
  - vm_compute. split; [discriminate | reflexivity].
Defined.

(** * What a run prints *)

Lemma generate_ticket_line {R} (rand : R -> Z * R) (s : R) :
  valid_line (generate_ticket rand s).1.
Proof.
  unfold generate_ticket.
  pose proof (shuffle_rand_Permutation rand 48 pool_init s) as Hp.
  destruct (shuffle_rand rand 48 pool_init s) as [numbers s1]. cbn [fst] in *.
  destruct (prefix_of_shuffled 6 numbers Hp) as (L6 & R6 & N6); [lia |].
  unfold valid_line. split; [by rewrite length_qsort |].
  split; [by rewrite qsort_Permutation |].
  split; [by rewrite qsort_Permutation | by apply qsort_strict].
Qed.

Lemma generate_lines {R} (rand : R -> Z * R) (count : nat) (s : R) :
  Forall valid_line (generate rand count s).
Proof.
  revert s. induction count as [|count IH]; intros s; [constructor |].
  cbn [generate]. pose proof (generate_ticket_line rand s) as Hl.
  destruct (generate_ticket rand s) as [t s1]. constructor; [exact Hl | apply IH].
Qed.

Lemma generate_app {R} (rand : R -> Z * R) (a b : nat) (s : R) :
  exists s', generate rand (a + b) s = generate rand a s ++ generate rand b s'.
Proof.
  revert s. induction a as [|a IH]; intros s; [by exists s |].
  cbn [generate Nat.add]. destruct (generate_ticket rand s) as [t s1].
  destruct (IH s1) as [s' ->]. by exists s'.
Qed.

(** X9. Every ticket that a finished run prints is well formed: in the
    portable variant 6 ascending main numbers and a bonus, all in
    [1,49] and pairwise distinct, whatever was redrawn on the way; in
    the simple variant 6 ascending distinct numbers in [1,49]. *)
Theorem printed_tickets_valid {R : Type} (srand : Z -> R) (rand : R -> Z * R)
    (fuel lfuel : nat) (argv : list string) (e : environment) (now : Z) (f : finished) :
  (main fuel lfuel argv e = Ret f -> Forall valid_ticket (stdout f)) /\
  ((forall s, 0 <= (rand s).1) ->
   Forall valid_line (stdout (main_simple srand rand argv now))).
Proof.
  split.
  - unfold main. intros Hf. destruct (lotto_ret _ _ _ _ _ Hf) as (_ & _ & Ht).
    destruct (tickets_holds _ _ _ _ _ _ (start_holds _) Ht) as (_ & new & Hnew & _ & Hv).
    cbn [start printed app] in Hnew. by rewrite Hnew.
  - intros _. unfold main_simple.
    destruct argv as [|prog [|arg rest]]; cbn [stdout]; try apply generate_lines.
    destruct (decide (atoi arg <= 0)); cbn [stdout]; [constructor | apply generate_lines].
Qed.

Lemma printed_tickets_valid_sample :
  (exists f, main 1 1024 ["lotto649"; "3"]%string launch = Ret f /\
             Forall valid_ticket (stdout f)) /\
  Forall valid_line (stdout (main_simple sample_srand sample_rand ["lotto649"; "3"]%string 0)).
Proof.
  split.
  - assert (E : exists f, main 1 1024 ["lotto649"; "3"]%string launch = Ret f)
      by (vm_compute; eexists; reflexivity).
    destruct E as [f E]. exists f. split; [exact E |].
    by apply (printed_tickets_valid sample_srand sample_rand 1 1024
                ["lotto649"; "3"]%string launch 0 f).
  - apply (printed_tickets_valid sample_srand sample_rand 1 1024
             ["lotto649"; "3"]%string launch 0
             {| exit_status := 0; stderr := EmptyString; stdout := [] |}).
    intros s. unfold sample_rand. simpl. apply Z.mod_pos_bound. lia.
Defined.

(** X10. Asking for more tickets only appends: with the same seed the
    tickets of a run of [k] are the first [k] tickets of a run of
    [k + j], in both variants. *)
Theorem more_tickets_extend {R : Type} (rand : R -> Z * R)
    (fuel lfuel k j : nat) (st : engine) (s : R) (f1 f2 : finished) :
  (lotto fuel lfuel (Z.of_nat k) st = Ret f1 ->
   lotto fuel lfuel (Z.of_nat (k + j)) st = Ret f2 ->
   stdout f1 = take k (stdout f2)) /\
  generate rand k s = take k (generate rand (k + j) s).
Proof.
  split.
  - intros H1 H2.
    destruct (lotto_ret _ _ _ _ _ H1) as (_ & _ & Ht1).
    destruct (lotto_ret _ _ _ _ _ H2) as (_ & _ & Ht2).
    rewrite !Nat2Z.id in *. rewrite tickets_app, Ht1 in Ht2.
    destruct (tickets_holds _ _ _ _ _ _ (start_holds st) Ht1) as (Hs1 & new1 & Hn1 & Hl1 & _).
    destruct (tickets_holds _ _ _ _ _ _ Hs1 Ht2) as (_ & new2 & Hn2 & _ & _).
    cbn [start printed app] in Hn1, Hn2. rewrite Hn2.
    rewrite take_app_length' by congruence. reflexivity.
  - destruct (generate_app rand k j s) as [s' ->].
    by rewrite take_app_length' by (by rewrite length_generate).
Qed.

Lemma more_tickets_extend_sample :
  exists f1 f2,
    lotto 1 1024 2 (seed_rng launch) = Ret f1 /\
    lotto 1 1024 3 (seed_rng launch) = Ret f2 /\
    stdout f1 = take 2 (stdout f2).
Proof.
  assert (E1 : exists f, lotto 1 1024 2 (seed_rng launch) = Ret f)
    by (vm_compute; eexists; reflexivity).
  assert (E2 : exists f, lotto 1 1024 3 (seed_rng launch) = Ret f)
    by (vm_compute; eexists; reflexivity).
  destruct E1 as [f1 E1], E2 as [f2 E2]. exists f1, f2.
  split; [exact E1 |]. split; [exact E2 |].
  by apply (more_tickets_extend sample_rand 1 1024 2 1 (seed_rng launch) 0 f1 f2).
Defined.

(** * The printed lines *)

Lemma digit_Some (a : ascii) (x : Z) :
  digit a = Some x -> 0 <= x <= 9 /\ nat_of_ascii a = (48 + Z.to_nat x)%nat.
Proof.
  unfold digit. destruct (_ && _) eqn:E; [| discriminate]. intros [= <-].
  apply andb_true_iff in E as [E1 E2]. apply Nat.leb_le in E1, E2. lia.
Qed.

Lemma fmt_02d_two_digits (v : Z) : in_range v -> two_digits v (fmt_02d v) = true.
Proof.
  intros Hv. apply elem_of_pool_init in Hv.
  assert (H : Forall (fun v => two_digits v (fmt_02d v) = true) pool_init).
  { apply (bool_decide_unpack _). vm_compute. reflexivity. }
  rewrite Forall_forall in H. by apply H.
Qed.

Lemma fmt_02d_chars (v : Z) :
  in_range v ->
  exists a b x y, fmt_02d v = String a (String b EmptyString) /\
                  digit a = Some x /\ digit b = Some y /\ v = 10 * x + y.
Proof.
  intros Hv. apply fmt_02d_two_digits in Hv. unfold two_digits in Hv.
  destruct (fmt_02d v) as [|a [|b [|c s]]]; try discriminate Hv.
  destruct (digit a) as [x|] eqn:Ea; [| discriminate Hv].
  destruct (digit b) as [y|] eqn:Eb; [| discriminate Hv].
  apply bool_decide_eq_true in Hv. by exists a, b, x, y.
Qed.

Lemma fmt_02d_inj (v w : Z) : in_range v -> in_range w -> fmt_02d v = fmt_02d w -> v = w.
Proof.
  intros Hv Hw H.
  destruct (fmt_02d_chars v Hv) as (a & b & x & y & Ev & Ha & Hb & ->).
  destruct (fmt_02d_chars w Hw) as (a' & b' & x' & y' & Ew & Ha' & Hb' & ->).
  rewrite Ev, Ew in H. injection H as -> ->. congruence.
Qed.

Lemma print_numbers_cons (v : Z) (l : list Z) (tail : string) :
  in_range v ->
  exists a b, fmt_02d v = String a (String b EmptyString) /\
              print_numbers (v :: l) tail =
              String a (String b (String " " (print_numbers l tail))).
Proof.
  intros Hv. destruct (fmt_02d_chars v Hv) as (a & b & _ & _ & E & _).
  exists a, b. split; [exact E |]. unfold print_numbers. cbn [foldr]. by rewrite E.
Qed.

Lemma length_print_numbers (l : list Z) (tail : string) :
  Forall in_range l ->
  String.length (print_numbers l tail) = (3 * length l + String.length tail)%nat.
Proof.
  induction 1 as [|v l Hv Hl IH]; [reflexivity |].
  destruct (print_numbers_cons v l tail Hv) as (a & b & _ & ->).
  cbn [String.length length]. rewrite IH. lia.
Qed.

Lemma print_numbers_inj (l1 : list Z) :
  forall (l2 : list Z) (tail1 tail2 : string),
    Forall in_range l1 -> Forall in_range l2 -> length l1 = length l2 ->
    print_numbers l1 tail1 = print_numbers l2 tail2 -> l1 = l2 /\ tail1 = tail2.
Proof.
  induction l1 as [|v l1 IH]; intros [|w l2] tail1 tail2 H1 H2 Hlen H;
    try discriminate Hlen.
  - by split.
  - apply Forall_cons in H1 as [Hv H1]. apply Forall_cons in H2 as [Hw H2].
    destruct (print_numbers_cons v l1 tail1 Hv) as (a & b & Ev & E1).
    destruct (print_numbers_cons w l2 tail2 Hw) as (a' & b' & Ew & E2).
    rewrite E1, E2 in H. injection H as -> -> H.
    destruct (IH l2 tail1 tail2 H1 H2) as [-> ->]; [by injection Hlen | exact H |].
    split; [| reflexivity]. f_equal. apply fmt_02d_inj; [exact Hv | exact Hw | congruence].
Qed.

Lemma length_fmt_2ld (n : Z) : 0 <= n < 100 -> String.length (fmt_2ld n) = 2%nat.
Proof.
  intros Hn.
  assert (H : Forall (fun n => String.length (fmt_2ld n) = 2%nat) (seqZ 0 100)).
  { apply (bool_decide_unpack _). vm_compute. reflexivity. }
  rewrite Forall_forall in H. apply H, elem_of_seqZ. lia.
Qed.

Lemma string_length_app (s1 s2 : string) :
  String.length (s1 +:+ s2) = (String.length s1 + String.length s2)%nat.
Proof.
  induction s1 as [|c s1 IH]; [reflexivity |].
  simpl. f_equal. exact IH.
Qed.

Lemma valid_ticket_parts (t : list Z) :
  valid_ticket t ->
  exists b, t !! 6%nat = Some b /\ t = take 6 t ++ [b] /\ in_range b /\
            Forall in_range (take 6 t) /\ length (take 6 t) = 6%nat.
Proof.
  intros (Hl & Hr & _ & _).
  destruct (lookup_lt_is_Some_2 t 6) as [b Hb]; [lia |].
  exists b. split; [exact Hb |]. split.
  - rewrite <- (take_drop 6 t) at 1. f_equal.
    rewrite (drop_S t b 6 Hb), drop_ge by lia. reflexivity.
  - split; [| split; [by apply Forall_take | rewrite length_take; lia]].
    rewrite Forall_forall in Hr. apply Hr. by eapply list_elem_of_lookup_2.
Qed.

(** X12. Every number of a ticket is printed with two digits, a leading
    zero in front of the numbers below 10: a line of the simple variant
    is 19 characters long, a line of the portable variant 40 for the
    tickets numbered up to 99. *)
Theorem printed_line_shape (n v : Z) (line ticket : list Z) :
  (in_range v ->
   String.length (fmt_02d v) = 2%nat /\
   (v < 10 -> exists d, fmt_02d v = String "0" (String d EmptyString))) /\
  (valid_line line -> String.length (print_line line) = 19%nat) /\
  (valid_ticket ticket -> 0 <= n < 100 ->
   String.length (print_ticket n ticket) = 40%nat).
Proof.
  split; [| split].
  - intros Hv. destruct (fmt_02d_chars v Hv) as (a & b & x & y & E & Ha & Hb & Hxy).
    split; [by rewrite E |]. intros Hlt.
    exists b. rewrite E. f_equal.
    apply digit_Some in Ha as [Hx Ha]. apply digit_Some in Hb as [Hy _].
    unfold in_range in Hv. assert (x = 0) as -> by lia.
    rewrite <- (ascii_nat_embedding a), Ha. reflexivity.
  - intros (Hl & Hr & _). unfold print_line.
    rewrite length_print_numbers by exact Hr. rewrite Hl. reflexivity.
  - intros Ht Hn. destruct (valid_ticket_parts ticket Ht) as (b & Hb & _ & Hbr & Hr & Hl).
    destruct (fmt_02d_chars b Hbr) as (c & d & _ & _ & E & _).
    unfold print_ticket. rewrite Hb. cbn [default from_option id].
    rewrite !string_length_app, length_print_numbers, !string_length_app by exact Hr.
    rewrite length_fmt_2ld, Hl, E by exact Hn. reflexivity.
Qed.

Lemma printed_line_shape_sample :
  String.length (fmt_02d 7) = 2%nat /\
  String.length (print_line [6; 9; 14; 25; 32; 45]) = 19%nat /\
  String.length (print_ticket 1 [3; 8; 11; 19; 23; 41; 48]) = 40%nat.
Proof.
  assert (Hd : forall l : list Z, bool_decide (NoDup l) = true -> NoDup l)
    by (intros l; apply bool_decide_eq_true).
  assert (Hs : forall l : list Z, bool_decide (Sorted Z.lt l) = true -> Sorted Z.lt l)
    by (intros l; apply bool_decide_eq_true).
  split; [| split].
  - apply (printed_line_shape 0 7 [] []). unfold in_range. lia.
  - apply (printed_line_shape 0 1 [6; 9; 14; 25; 32; 45] []).
    split; [reflexivity |]. split; [repeat constructor; unfold in_range; lia |].
    split; [apply Hd | apply Hs]; vm_compute; reflexivity.
  - apply (printed_line_shape 1 1 [] [3; 8; 11; 19; 23; 41; 48]); [| lia].
    split; [reflexivity |]. split; [repeat constructor; unfold in_range; lia |].
    split; [apply Hd | apply Hs]; vm_compute; reflexivity.
Defined.

(** X13. The printed line tells the ticket: two well-formed tickets that
    print the same line are the same ticket, in both variants. *)
Theorem printed_line_injective (n : Z) (l1 l2 t1 t2 : list Z) :
  (valid_line l1 -> valid_line l2 -> print_line l1 = print_line l2 -> l1 = l2) /\
  (valid_ticket t1 -> valid_ticket t2 ->
   print_ticket n t1 = print_ticket n t2 -> t1 = t2).
Proof.
  split.
  - intros (L1 & R1 & _) (L2 & R2 & _) H.
    by destruct (print_numbers_inj l1 l2 newline newline R1 R2 ltac:(congruence) H).
  - intros H1 H2 H.
    destruct (valid_ticket_parts t1 H1) as (b1 & Hb1 & E1 & Br1 & R1 & L1).
    destruct (valid_ticket_parts t2 H2) as (b2 & Hb2 & E2 & Br2 & R2 & L2).
    unfold print_ticket in H. rewrite Hb1, Hb2 in H. cbn [default from_option id] in H.
    do 3 apply (inj (String.append _)) in H.
    apply print_numbers_inj in H as [Hm Ht]; [| assumption | assumption | congruence].
    apply (inj (String.append _)) in Ht.
    destruct (fmt_02d_chars b1 Br1) as (a & b & _ & _ & Eb1 & _).
    assert (fmt_02d b1 = fmt_02d b2).
    { destruct (fmt_02d_chars b2 Br2) as (a' & b' & _ & _ & Eb2 & _).
      rewrite Eb1, Eb2 in Ht |- *. cbn in Ht. by injection Ht as -> ->. }
    rewrite E1, E2, Hm. f_equal. f_equal. by apply fmt_02d_inj.
Qed.

Lemma printed_line_injective_sample :
  [6; 9; 14; 25; 32; 45] = qsort [45; 6; 32; 9; 25; 14].
Proof.
  assert (Hd : forall l : list Z, bool_decide (NoDup l) = true -> NoDup l)
    by (intros l; apply bool_decide_eq_true).
  assert (Hs : forall l : list Z, bool_decide (Sorted Z.lt l) = true -> Sorted Z.lt l)
    by (intros l; apply bool_decide_eq_true).
  assert (Hr : forall l : list Z, forallb (fun v => (1 <=? v) && (v <=? 49)) l = true ->
                                  Forall in_range l).
  { intros l H. apply Forall_forall. intros v Hv.
    rewrite forallb_forall in H. specialize (H v (proj1 (list_elem_of_In _ _) Hv)).
    unfold in_range. lia. }
  apply (printed_line_injective 0 [6; 9; 14; 25; 32; 45] (qsort [45; 6; 32; 9; 25; 14]) [] []).
  - split; [reflexivity |]. split; [apply Hr; reflexivity |].
    split; [apply Hd | apply Hs]; vm_compute; reflexivity.
  - split; [reflexivity |]. split; [apply Hr; vm_compute; reflexivity |].
    split; [apply Hd | apply Hs]; vm_compute; reflexivity.
  - vm_compute. reflexivity.
Defined.

(** * Storing, then looking up *)

(** X5. Right after [remember(h, index)] at the next free index of a
    run, with [h] and the stored fingerprints not 0 and room left in
    the table, [already_seen(h)] answers 1 exactly when the home slot
    [h & (capacity - 1)] of [h] is at most [index]. *)
Theorem remember_then_seen (hs : list Z) (g g' : guard) (h : Z) (fuel : nat) :
  guard_holds hs g -> Forall (fun v => v <> 0) hs -> h <> 0 ->
  remember h (Z.of_nat (length hs)) g = Some g' ->
  Z.of_nat (length hs) + 1 < capacity g' ->
  (Z.to_nat (capacity g') <= fuel)%nat ->
  already_seen fuel g' h = Ret (bool_decide (home g' h <= Z.of_nat (length hs))).
Proof.
  intros Hg Hnz Hh Hr Hroom Hfuel.
  destruct (remember_next hs g h Hg) as (g1 & Hr1 & Hg1).
  rewrite Hr in Hr1. injection Hr1 as <-.
  assert (Hnz' : Forall (fun v => v <> 0) (hs ++ [h])).
  { apply Forall_app. split; [exact Hnz | by constructor]. }
  rewrite (already_seen_walk (hs ++ [h]) g' h fuel Hg1); try assumption.
  2: { rewrite length_app. simpl. lia. }
  f_equal. apply bool_decide_ext.
  assert (Hhome : 0 <= home g' h).
  { unfold home. apply Z.land_nonneg. right.
    pose proof (guard_holds_well_formed _ _ Hg1) as Hw. unfold well_formed in Hw.
    unfold guard_holds in Hg1. destruct (seen g'); [| destruct Hg1; by destruct hs].
    destruct Hw as [(e & He & Hc) _].
    assert (0 < capacity g') by (rewrite Hc; apply Z.pow_pos_nonneg; lia). lia. }
  split.
  - intros Hin. destruct (decide (home g' h <= Z.of_nat (length hs))); [assumption |].
    rewrite drop_ge in Hin by (rewrite length_app; simpl; lia).
    by apply elem_of_nil in Hin.
  - intros Hle. apply (list_elem_of_lookup_2 _ (length hs - Z.to_nat (home g' h))).
    rewrite lookup_drop, lookup_app_r by lia.
    replace (Z.to_nat (home g' h) + (length hs - Z.to_nat (home g' h)) - length hs)%nat
      with 0%nat by lia. reflexivity.
Qed.

Lemma remember_then_seen_fresh :
  (exists g, remember 1024 0 guard_init = Some g /\ already_seen 1024 g 1024 = Ret true) /\
  (exists g, remember 5 0 guard_init = Some g /\ already_seen 1024 g 5 = Ret false).
Proof.
  assert (Hg : guard_holds [] guard_init) by (by split).
  split.
  - exists home_entry. split; [vm_compute; reflexivity |].
    apply (remember_then_seen [] guard_init home_entry 1024 1024 Hg);
      [constructor | discriminate | vm_compute; reflexivity | vm_compute; reflexivity | vm_compute; lia].
  - exists one_entry. split; [vm_compute; reflexivity |].
    apply (remember_then_seen [] guard_init one_entry 5 1024 Hg);
      [constructor | discriminate | vm_compute; reflexivity | vm_compute; reflexivity | vm_compute; lia].
Defined.

Lemma remember_all_fits_two :
  exists g, remember_all [5; 6] 0 guard_init = Some g /\
            seen g = Some (5 :: 6 :: replicate 1022 0) /\ capacity g = 1024.
Proof.
  destruct (remember_all_fits [5; 6]) as (g & Hr & _ & H).
  exists g. split; [exact Hr |].
  destruct H as (tbl & Hs & Ht & _ & Hc & _); [discriminate |].
  specialize (Hc ltac:(simpl; lia)). rewrite Hc in Ht.
  split; [by rewrite Hs, Ht | exact Hc].
Defined.

(** * The draws behind the tickets *)

Lemma draw_one_advance (st : engine) : (draw_one st).2 = advance 48 st.
Proof.
  unfold draw_one, advance. rewrite shuffle_outputs.
  destruct (outputs 48 st) as [rs st1]. cbn [fst snd]. reflexivity.
Qed.

Lemma advance_add (a b : nat) (st : engine) :
  advance (a + b) st = advance b (advance a st).
Proof.
  revert st. induction a as [|a IH]; intros st; [reflexivity |].
  cbn [Nat.add]. by rewrite !advance_succ, IH.
Qed.

Lemma draws_app (a b : nat) (st : engine) :
  draws (a + b) st = draws a st ++ draws b (advance (48 * a) st).
Proof.
  revert st. induction a as [|a IH]; intros st; [reflexivity |].
  cbn [Nat.add]. rewrite !draws_succ, draw_one_advance.
  rewrite IH. cbn [app]. do 3 f_equal.
  replace (48 * S a)%nat with (48 + 48 * a)%nat by lia. by rewrite advance_add.
Qed.

(** One round of the [do ... while] loop: the ticket it ends with is the
    last of the draws made, the ones before it were reported as seen. *)
Lemma draw_fresh_draws fuel lfuel st g t h st' :
  draw_fresh fuel lfuel st g = Ret (t, h, st') ->
  exists m : nat, (m < fuel)%nat /\
    draws (S m) st = draws m st ++ [t] /\ st' = advance (48 * S m) st /\
    Forall (fun d => already_seen lfuel g (hash_ticket d) = Ret true) (draws m st).
Proof.
  revert st. induction fuel as [|fuel IH]; intros st; [discriminate |].
  cbn [draw_fresh]. pose proof (draw_one_advance st) as Hd.
  destruct (draw_one st) as [t1 st1] eqn:E1. cbn [snd] in Hd.
  destruct (already_seen lfuel g (hash_ticket t1)) as [[|]| |] eqn:E;
    [| | intros [=] | intros [=]].
  - intros H. apply IH in H as (m & Hm & Hdr & Hst & Hall).
    exists (S m). split; [lia |].
    split; [| split].
    + rewrite (draws_succ (S m) st), (draws_succ m st), E1. cbn [fst snd].
      rewrite Hdr. reflexivity.
    + rewrite Hst, Hd, <- advance_add. f_equal. lia.
    + rewrite draws_succ, E1. cbn [fst snd]. by constructor.
  - intros [= <- <- <-]. exists 0%nat. split; [lia |].
    rewrite draws_succ, E1. cbn [fst snd draws app].
    split; [reflexivity |]. split; [exact Hd | constructor].
Qed.

Lemma tickets_draws fuel lfuel k :
  forall n s s',
    tickets fuel lfuel k n s = Ret s' ->
    exists (m : nat) (new : list (list Z)),
      printed s' = printed s ++ new /\ new `sublist_of` draws m (rng s) /\
      (k <= m)%nat /\ rng s' = advance (48 * m) (rng s).
Proof.
  induction k as [|k IH]; intros n s s'.
  - intros [= <-]. exists 0%nat, []. rewrite app_nil_r. by repeat split.
  - cbn [tickets].
    destruct (draw_fresh fuel lfuel (rng s) (table s)) as [[[t h] st]| |] eqn:Ed;
      [| intros [=] | intros [=]].
    apply draw_fresh_draws in Ed as (m1 & _ & Hdr & Hst & _).
    destruct (remember h (n - 1) (table s)) as [g|]; [| intros [=]].
    intros H. apply IH in H as (m2 & new & Hp & Hsub & Hk & Hr).
    cbn [printed rng] in Hp, Hsub, Hr.
    exists (S m1 + m2)%nat, (t :: new).
    split; [by rewrite Hp, <- app_assoc |].
    split; [| split; [lia |]].
    + rewrite draws_app, Hdr, <- Hst.
      change (t :: new) with ([t] ++ new).
      apply sublist_app; [| exact Hsub].
      apply sublist_inserts_l. reflexivity.
    + rewrite Hr, Hst, <- advance_add. f_equal. lia.
Qed.

(** X11. The tickets of a run are draws of the engine in the order
    drawn: each draw takes 48 engine outputs, and the tickets printed
    are a selection, in order, of the first [m] draws from the seed on,
    for some [m] at least the number of tickets. *)
Theorem tickets_are_successive_draws (fuel lfuel : nat) (want : Z) (st : engine)
    (f : finished) :
  (draw_one st).2 = advance 48 st /\
  (lotto fuel lfuel want st = Ret f ->
   exists m : nat, (length (stdout f) <= m)%nat /\ stdout f `sublist_of` draws m st).
Proof.
  split; [apply draw_one_advance |]. intros Hf.
  destruct (lotto_ret _ _ _ _ _ Hf) as (_ & _ & Ht).
  destruct (tickets_holds _ _ _ _ _ _ (start_holds st) Ht) as (_ & new' & Hn & Hl & _).
  apply tickets_draws in Ht as (m & new & Hp & Hsub & Hk & _).
  cbn [start printed rng app] in *. subst.
  exists m. split; [lia | exact Hsub].
Qed.

Lemma tickets_are_successive_draws_sample :
  exists f m, lotto 1 1024 3 (seed_rng launch) = Ret f /\
              stdout f `sublist_of` draws m (seed_rng launch).
Proof.
  assert (E : exists f, lotto 1 1024 3 (seed_rng launch) = Ret f)
    by (vm_compute; eexists; reflexivity).
  destruct E as [f E].
  destruct (tickets_are_successive_draws 1 1024 3 (seed_rng launch) f) as [_ H].
  destruct (H E) as (m & _ & Hm). exists f, m. split; [exact E | exact Hm].
Defined.
